(** * wordpress-export-to-markdown: the translator (src/translator.js)

    A shallow embedding of [extractYoutubeVideoId], of the replacement
    functions registered by [initTurndownService] and of [getPostContent],
    together with the JavaScript string and regular-expression operations
    they are written with.

    Strings are [string]s of 8-bit characters: a JavaScript string of code
    units below 256.  The DOM and the Turndown converter are libraries the
    translator calls; what the translator reads from a node is modelled on
    a small DOM tree, and the serializer ([outerHTML]), the converter
    ([turndown]) and the converter's blank test ([isBlank]) are section
    variables. *)

From Stdlib Require Import List Bool Arith Lia Ascii String.
Set Warnings "-register-all".
Import ListNotations.
Open Scope string_scope.

(* ================================================================== *)
(** * JavaScript strings *)

Module JsString.

Definition LF : string := String (ascii_of_nat 10) "".
Definition CR : string := String (ascii_of_nat 13) "".

Fixpoint drop (n : nat) (s : string) : string :=
  match n, s with
  | S n', String _ s' => drop n' s'
  | _, _ => s
  end.

Fixpoint take (n : nat) (s : string) : string :=
  match n, s with
  | S n', String c s' => String c (take n' s')
  | _, _ => ""
  end.

(** [cut pat s]: the text before and the text after the first
    occurrence of [pat] in [s] ([indexOf] read as a split point). *)
Fixpoint cut (pat s : string) : option (string * string) :=
  if prefix pat s then Some ("", drop (length pat) s)
  else match s with
       | "" => None
       | String c s' =>
           match cut pat s' with
           | Some (b, a) => Some (String c b, a)
           | None => None
           end
       end.

(** [String.prototype.includes] *)
Definition includes (pat s : string) : bool :=
  match cut pat s with Some _ => true | None => false end.

Fixpoint chars (s : string) : list string :=
  match s with
  | "" => []
  | String c s' => String c "" :: chars s'
  end.

Fixpoint split_fuel (fuel : nat) (sep s : string) : list string :=
  match fuel with
  | 0 => [s]
  | S f =>
      match cut sep s with
      | None => [s]
      | Some (b, a) => b :: split_fuel f sep a
      end
  end.

(** [String.prototype.split] with a string separator and no limit.
    Every cut removes at least one character of a non-empty separator,
    so [S (length s)] rounds are never used up. *)
Definition split (sep s : string) : list string :=
  match sep with
  | "" => chars s
  | _ => split_fuel (S (length s)) sep s
  end.

(** [String.prototype.replace] with a string pattern: the first
    occurrence only; the replacements used by the translator hold no
    [$] pattern. *)
Definition replace (pat by_ s : string) : string :=
  match cut pat s with
  | Some (b, a) => b ++ by_ ++ a
  | None => s
  end.

(** White space of [String.prototype.trim] among the 8-bit characters:
    TAB, LF, VT, FF, CR, SPACE, NBSP. *)
Definition is_white (c : ascii) : bool :=
  let n := nat_of_ascii c in
  ((9 <=? n)%nat && (n <=? 13)%nat) || (n =? 32)%nat || (n =? 160)%nat.

Fixpoint trimStart (s : string) : string :=
  match s with
  | String c s' => if is_white c then trimStart s' else s
  | "" => ""
  end.

Fixpoint trimEnd (s : string) : string :=
  match s with
  | "" => ""
  | String c s' =>
      match trimEnd s' with
      | "" => if is_white c then "" else String c ""
      | t => String c t
      end
  end.

Definition trim (s : string) : string := trimEnd (trimStart s).

(** [String.prototype.toUpperCase] on 8-bit characters with an upper
    case among them: a to z. *)
Definition upper (a : ascii) : ascii :=
  let n := nat_of_ascii a in
  if (97 <=? n)%nat && (n <=? 122)%nat then ascii_of_nat (n - 32) else a.

Fixpoint toUpperCase (s : string) : string :=
  match s with
  | "" => ""
  | String a s' => String (upper a) (toUpperCase s')
  end.

(** Truthiness of a string in a condition: the empty string is falsy. *)
Definition truthy (s : string) : bool :=
  match s with "" => false | _ => true end.

End JsString.
Import JsString.

(* ================================================================== *)
(** * extractYoutubeVideoId *)

(** A completion of the body of a [try] block: a value, or an exception
    thrown. *)
Inductive completion (A : Type) : Type :=
| Normal (a : A)
| Throw.
Arguments Normal {A} a.
Arguments Throw {A}.

Definition bind {A B : Type} (c : completion A) (f : A -> completion B) : completion B :=
  match c with
  | Normal a => f a
  | Throw => Throw
  end.

Notation "x <- c ;; k" := (bind c (fun x => k))
  (at level 61, c at next level, right associativity).

(** [arr[i].split(...)]: indexing past the end of an array gives
    [undefined], and calling a method on [undefined] throws a TypeError. *)
Definition element (arr : list string) (i : nat) : completion string :=
  match nth_error arr i with
  | Some s => Normal s
  | None => Throw
  end.

(** The body of the [try] block of [extractYoutubeVideoId]. *)
Definition extractYoutubeVideoId_try (url : string) : completion string :=
  if includes "watch?v=" url then
    seg <- element (split "watch?v=" url) 1 ;;
    element (split "&" seg) 0
  else if includes "youtu.be/" url then
    seg <- element (split "youtu.be/" url) 1 ;;
    element (split "?" seg) 0
  else Normal "".

Definition extractYoutubeVideoId (url : string) : string :=
  match extractYoutubeVideoId_try url with
  | Normal id => id
  | Throw => ""          (* catch (error) { return ''; } *)
  end.

(* ================================================================== *)
(** * Regular expressions

    A backtracking matcher in continuation-passing style, as ECMAScript
    specifies pattern matching: a matcher takes the rest of the input,
    the captures made so far and a continuation, and alternatives are
    tried in priority order.  Every atom under a star or a plus in the
    five patterns of [getPostContent] is a single-character class, so
    the star is [Star greedy cls]; [x+] is [x] followed by [x*], [x?] is
    the alternative of [x] and the empty pattern, [x{2}] is [x] twice. *)

Module Regex.

(** Captures, most recent first; a group that did not take part in the
    match has no entry. *)
Definition caps : Type := list (nat * string).

Fixpoint capture (n : nat) (c : caps) : option string :=
  match c with
  | [] => None
  | (j, w) :: c' => if Nat.eqb j n then Some w else capture n c'
  end.

Inductive regex : Type :=
| Eps
| Chr (a : ascii)
| Cls (p : ascii -> bool)
| Seq (r1 r2 : regex)
| Alt (r1 r2 : regex)
| Star (greedy : bool) (p : ascii -> bool)
| Group (n : nat) (r : regex).

Fixpoint Str (s : string) : regex :=
  match s with
  | "" => Eps
  | String a s' => Seq (Chr a) (Str s')
  end.

Definition Plus (greedy : bool) (p : ascii -> bool) : regex :=
  Seq (Cls p) (Star greedy p).
Definition Opt (r : regex) : regex := Alt r Eps.

Fixpoint Seqs (rs : list regex) : regex :=
  match rs with
  | [] => Eps
  | [r] => r
  | r :: rs' => Seq r (Seqs rs')
  end.

(** Character classes. *)
Definition just (a : ascii) : ascii -> bool := Ascii.eqb a.
Definition except (a : ascii) : ascii -> bool := fun b => negb (Ascii.eqb a b).
(** [.]: anything but a line terminator. *)
Definition dot : ascii -> bool :=
  fun b => negb (Ascii.eqb b (ascii_of_nat 10) || Ascii.eqb b (ascii_of_nat 13)).
(** [\d] *)
Definition digit : ascii -> bool :=
  fun b => ((48 <=? nat_of_ascii b)%nat && (nat_of_ascii b <=? 57)%nat).

(** Canonicalize of the [i] flag: a to z are compared as A to Z.  The
    classes of the one pattern with the flag ([[^>]], [[^/\x22]], [.])
    name characters that have no other case, so they are tested on the
    character itself. *)
Definition canon (icase : bool) (a : ascii) : ascii :=
  let n := nat_of_ascii a in
  if icase && (97 <=? n)%nat && (n <=? 122)%nat then ascii_of_nat (n - 32) else a.

Definition result : Type := string * caps.

(** The text between two positions of the input, each given by what is
    left of the input there. *)
Definition consumed (s rest : string) : string :=
  take (String.length s - String.length rest) s.

Fixpoint star_greedy (p : ascii -> bool) (k : string -> option result)
    (s : string) : option result :=
  match s with
  | String b s' =>
      if p b then
        match star_greedy p k s' with
        | Some r => Some r
        | None => k s
        end
      else k s
  | "" => k s
  end.

Fixpoint star_lazy (p : ascii -> bool) (k : string -> option result)
    (s : string) : option result :=
  match k s with
  | Some r => Some r
  | None =>
      match s with
      | String b s' => if p b then star_lazy p k s' else None
      | "" => None
      end
  end.

Fixpoint m (icase : bool) (r : regex) (s : string) (c : caps)
    (k : string -> caps -> option result) : option result :=
  match r with
  | Eps => k s c
  | Chr a =>
      match s with
      | String b s' =>
          if Ascii.eqb (canon icase a) (canon icase b) then k s' c else None
      | "" => None
      end
  | Cls p =>
      match s with
      | String b s' => if p b then k s' c else None
      | "" => None
      end
  | Seq r1 r2 => m icase r1 s c (fun s1 c1 => m icase r2 s1 c1 k)
  | Alt r1 r2 =>
      match m icase r1 s c k with
      | Some x => Some x
      | None => m icase r2 s c k
      end
  | Star true p => star_greedy p (fun s' => k s' c) s
  | Star false p => star_lazy p (fun s' => k s' c) s
  | Group n r1 =>
      m icase r1 s c
        (fun s1 c1 => k s1 ((n, consumed s s1) :: c1))
  end.

(** The continuation at the end of a pattern: the match is accepted. *)
Definition keep : string -> caps -> option result := fun s' c' => Some (s', c').

(** A match attempt at the start of [s]: the rest of the input after
    the match, and the captures. *)
Definition match_at (icase : bool) (r : regex) (s : string) : option result :=
  m icase r s [] keep.

(** A successful search: the text before the match, the matched text,
    the captures, the text after the match. *)
Record found : Type := Found {
  before : string;
  matched : string;
  groups : caps;
  after : string
}.

Definition shift (b : ascii) (f : found) : found :=
  Found (String b (before f)) (matched f) (groups f) (after f).

(** RegExpBuiltinExec from index 0: the leftmost start position at
    which an attempt succeeds. *)
Fixpoint search (icase : bool) (r : regex) (s : string) : option found :=
  match match_at icase r s with
  | Some (rest, c) =>
      Some (Found "" (consumed s rest) c rest)
  | None =>
      match s with
      | String b s' => option_map (shift b) (search icase r s')
      | "" => None
      end
  end.

(** Replacement templates: [$n] is [Ref n]; the rest is literal. *)
Inductive piece : Type :=
| Lit (s : string)
| Ref (n : nat).

Fixpoint expand (t : list piece) (c : caps) : string :=
  match t with
  | [] => ""
  | Lit s :: t' => s ++ expand t' c
  | Ref n :: t' =>
      match capture n c with
      | Some w => w ++ expand t' c
      | None => expand t' c
      end
  end.

(** [String.prototype.replace] with a pattern without the [g] flag. *)
Definition replace_first (icase : bool) (r : regex) (t : list piece)
    (s : string) : string :=
  match search icase r s with
  | None => s
  | Some f => before f ++ expand t (groups f) ++ after f
  end.

Fixpoint replace_all_fuel (fuel : nat) (icase : bool) (r : regex)
    (t : list piece) (s : string) : string :=
  match fuel with
  | 0 => s
  | S fuel' =>
      match search icase r s with
      | None => s
      | Some f =>
          before f ++ expand t (groups f) ++
          match matched f, after f with
          | "", String b rest => String b (replace_all_fuel fuel' icase r t rest)
          | "", "" => ""
          | _, rest => replace_all_fuel fuel' icase r t rest
          end
      end
  end.

(** [String.prototype.replace] with a pattern with the [g] flag: the
    matches are found from left to right, each search starting where
    the previous match ended (one character further after an empty
    match).  Each round consumes a character, so [S (length s)]
    rounds are never used up. *)
Definition replace_all (icase : bool) (r : regex) (t : list piece)
    (s : string) : string :=
  replace_all_fuel (S (String.length s)) icase r t s.

End Regex.
Import Regex.

(* ================================================================== *)
(** * getPostContent *)

(** The double quote, as a string and as a character; CR and LF. *)
Definition DQ : string := String (ascii_of_nat 34) "".
Definition dq : ascii := ascii_of_nat 34.
Definition cr : ascii := ascii_of_nat 13.
Definition lf : ascii := ascii_of_nat 10.

(** [/(\r?\n){2}/g] *)
Definition re_blank_line : regex :=
  let nl := Seq (Opt (Chr cr)) (Chr lf) in
  Seq (Group 1 nl) (Group 1 nl).

(** [/(<img[^>]*src=\x22).*?([^/\x22]+\.(?:gif|jpe?g|png|webp))(\x22[^>]*>)/gi],
    the double quote written [\x22] here. *)
Definition re_image_ext : regex :=
  Alt (Str "gif")
    (Alt (Seqs [Str "jp"; Opt (Chr "e"%char); Chr "g"%char])
       (Alt (Str "png") (Str "webp"))).

Definition not_slash_quote : ascii -> bool :=
  fun b => negb (Ascii.eqb b "/"%char || Ascii.eqb b dq).

Definition re_img_open : regex :=
  Seqs [Str "<img"; Star true (except ">"%char); Str "src="; Chr dq].

Definition re_img_file : regex :=
  Seqs [Plus true not_slash_quote; Chr "."%char; re_image_ext].

Definition re_img_close : regex :=
  Seqs [Chr dq; Star true (except ">"%char); Chr ">"%char].

Definition re_img_src : regex :=
  Seqs [Group 1 re_img_open; Star false dot; Group 2 re_img_file; Group 3 re_img_close].

(** [/<(!--more( .{0,})?--)>/], the source's star written [{0,}] here. *)
Definition re_more : regex :=
  Seqs [ Chr "<"%char;
         Group 1 (Seqs [Str "!--more";
                        Opt (Group 2 (Seq (Chr " "%char) (Star true dot)));
                        Str "--"]);
         Chr ">"%char ].

(** [/(<!-- wp:.+? \{"language":"(.+?)"\} -->\r?\n<pre )/g] *)
Definition re_code_language : regex :=
  Group 1 (Seqs [ Str "<!-- wp:"; Plus false dot;
                  Str " {"; Chr dq; Str "language"; Chr dq; Str ":"; Chr dq;
                  Group 2 (Plus false dot);
                  Chr dq; Str "} -->"; Opt (Chr cr); Chr lf; Str "<pre " ]).

(** [/(-|\d+\.) +/g]; [re_marker] is what its group holds. *)
Definition re_marker : regex :=
  Alt (Chr "-"%char) (Seq (Plus true digit) (Chr "."%char)).

Definition re_list_marker : regex :=
  Seq (Group 1 re_marker) (Plus true (just " "%char)).

Record config : Type := Config { saveScrapedImages : bool }.

Record postData : Type := PostData { encoded : list string }.

(** The four rewrites before the conversion, one definition each. *)
Definition separate_paragraphs (content : string) : string :=
  replace_all false re_blank_line [Lit (LF ++ "<div></div>" ++ LF)] content.

Definition rewrite_image_paths (cfg : config) (content : string) : string :=
  if saveScrapedImages cfg
  then replace_all true re_img_src [Ref 1; Lit "images/"; Ref 2; Ref 3] content
  else content.

Definition escape_more (content : string) : string :=
  replace_first false re_more [Lit "&lt;"; Ref 1; Lit "&gt;"] content.

Definition annotate_code_language (content : string) : string :=
  replace_all false re_code_language
    [Ref 1; Lit ("data-wetm-language=" ++ DQ); Ref 2; Lit (DQ ++ " ")] content.

Definition preprocess (cfg : config) (content : string) : string :=
  annotate_code_language
    (escape_more (rewrite_image_paths cfg (separate_paragraphs content))).

(** The rewrite after the conversion. *)
Definition postprocess (markdown : string) : string :=
  replace_all false re_list_marker [Ref 1; Lit " "] markdown.

Section GetPostContent.

(** [turndownService.turndown]: the HTML to Markdown conversion of the
    Turndown library with the rules of [initTurndownService]. *)
Variable turndown : string -> string.

Definition convert (cfg : config) (content : string) : string :=
  postprocess (turndown (preprocess cfg content)).

(** [postData.encoded[0]] is [undefined] when the array is empty, and
    [undefined.replace] throws. *)
Definition getPostContent (post : postData) (cfg : config) : completion string :=
  content <- element (encoded post) 0 ;;
  Normal (convert cfg content).

End GetPostContent.

(* ================================================================== *)
(** * The DOM, as far as the rules read it *)

Module Dom.

Inductive node : Type :=
| Text (data : string)
| Comment (data : string)
| Element (localName : string) (attributes : list (string * string))
    (childNodes : list node).

(** [node.nodeName]: the upper-cased tag of an HTML element. *)
Definition nodeName (n : node) : string :=
  match n with
  | Text _ => "#text"
  | Comment _ => "#comment"
  | Element t _ _ => toUpperCase t
  end.

Fixpoint lookup (name : string) (attrs : list (string * string)) : option string :=
  match attrs with
  | [] => None
  | (k, v) :: attrs' => if String.eqb k name then Some v else lookup name attrs'
  end.

(** [node.getAttribute(name)]: [None] is [null]. *)
Definition getAttribute (name : string) (n : node) : option string :=
  match n with
  | Element _ attrs _ => lookup name attrs
  | _ => None
  end.

(** [node.attributes[name]] read as a condition: the attribute exists. *)
Definition hasAttribute (name : string) (n : node) : bool :=
  match getAttribute name n with Some _ => true | None => false end.

(** The tokens of a class attribute: split on ASCII white space. *)
Definition is_space (a : ascii) : bool :=
  let n := nat_of_ascii a in
  (n =? 9)%nat || (n =? 10)%nat || (n =? 12)%nat || (n =? 13)%nat || (n =? 32)%nat.

Fixpoint tokens_from (cur : string) (s : string) : list string :=
  match s with
  | "" => match cur with "" => [] | _ => [cur] end
  | String a s' =>
      if is_space a
      then match cur with "" => tokens_from "" s' | _ => cur :: tokens_from "" s' end
      else tokens_from (cur ++ String a "") s'
  end.

Definition classList (n : node) : list string :=
  match getAttribute "class" n with
  | Some v => tokens_from "" v
  | None => []
  end.

(** [node.classList.contains(name)] *)
Definition classList_contains (name : string) (n : node) : bool :=
  existsb (String.eqb name) (classList n).

(** The selectors the rules use: a tag name, or a class. *)
Inductive selector : Type :=
| ByTag (name : string)
| ByClass (name : string).

Definition selects (sel : selector) (n : node) : bool :=
  match n, sel with
  | Element t _ _, ByTag name => String.eqb (toUpperCase t) (toUpperCase name)
  | Element _ _ _, ByClass name => classList_contains name n
  | _, _ => false
  end.

(** The first element in tree order, among [n] and its descendants,
    that the selector selects. *)
Fixpoint first_match (sel : selector) (n : node) : option node :=
  if selects sel n then Some n
  else match n with
       | Element _ _ kids =>
           (fix among (l : list node) : option node :=
              match l with
              | [] => None
              | kid :: l' =>
                  match first_match sel kid with
                  | Some x => Some x
                  | None => among l'
                  end
              end) kids
       | _ => None
       end.

Fixpoint first_among (sel : selector) (l : list node) : option node :=
  match l with
  | [] => None
  | kid :: l' =>
      match first_match sel kid with
      | Some x => Some x
      | None => first_among sel l'
      end
  end.

(** [node.querySelector(sel)]: the first matching descendant. *)
Definition querySelector (sel : selector) (n : node) : option node :=
  match n with
  | Element _ _ kids => first_among sel kids
  | _ => None
  end.

(** [node.textContent]: the text of the descendants, comments left
    out. *)
Fixpoint textContent (n : node) : string :=
  match n with
  | Text d => d
  | Comment d => d
  | Element _ _ kids =>
      (fix texts (l : list node) : string :=
         match l with
         | [] => ""
         | Comment _ :: l' => texts l'
         | kid :: l' => textContent kid ++ texts l'
         end) kids
  end.

(** A node where the converter meets it: under its parent, after its
    previous sibling if it has one. *)
Record place : Type := At {
  previousSibling : option node;
  this : node
}.

End Dom.
Import Dom.

(* ================================================================== *)
(** * The rules of initTurndownService *)

Definition NL : string := LF.
Definition NL2 : string := LF ++ LF.
Definition NL4 : string := LF ++ LF ++ LF ++ LF.

Section Rules.

(** [node.outerHTML]: the DOM's serialization of a node. *)
Variable outerHTML : node -> string.

(** [turndownService.turndown], which the table rule calls on the
    markup of a descendant. *)
Variable turndown : string -> string.

Definition tweet_filter (n : node) : bool :=
  String.eqb (nodeName n) "BLOCKQUOTE" &&
  match getAttribute "class" n with
  | Some v => String.eqb v "twitter-tweet"
  | None => false
  end.

Definition tweet_replacement (content : string) (n : place) : string :=
  NL2 ++ outerHTML (this n).

Definition codepen_filter (n : node) : bool :=
  (String.eqb (nodeName n) "P" || String.eqb (nodeName n) "DIV") &&
  hasAttribute "data-slug-hash" n &&
  match getAttribute "class" n with
  | Some v => String.eqb v "codepen"
  | None => false
  end.

Definition codepen_replacement (content : string) (n : place) : string :=
  NL2 ++ outerHTML (this n).

Definition script_filter (n : node) : bool := String.eqb (nodeName n) "SCRIPT".

Definition script_before (n : place) : string :=
  match previousSibling n with
  | Some p => if negb (String.eqb (nodeName p) "#text") then NL else NL2
  | None => NL2
  end.

Definition script_replacement (content : string) (n : place) : string :=
  let html := replace ("async=" ++ DQ ++ DQ) "async" (outerHTML (this n)) in
  script_before n ++ html ++ NL2.

Definition iframe_filter (n : node) : bool := String.eqb (nodeName n) "IFRAME".

Definition iframe_replacement (content : string) (n : place) : string :=
  let html :=
    replace ("allowpaymentrequest=" ++ DQ ++ DQ) "allowpaymentrequest"
      (replace ("allowfullscreen=" ++ DQ ++ DQ) "allowfullscreen"
         (outerHTML (this n))) in
  NL2 ++ html ++ NL2.

Definition figure_filter (n : node) : bool := String.eqb (nodeName n) "FIGURE".

Definition figure_replacement (content : string) (n : place) : string :=
  match querySelector (ByTag "figcaption") (this n) with
  | Some _ =>
      let result := NL2 ++ "<figure>" ++ NL2 ++ content ++ NL2 ++ "</figure>" ++ NL2 in
      replace NL4 NL2 result
  | None => content
  end.

Definition figcaption_filter (n : node) : bool := String.eqb (nodeName n) "FIGCAPTION".

Definition figcaption_replacement (content : string) (n : place) : string :=
  NL2 ++ "<figcaption>" ++ NL2 ++ content ++ NL2 ++ "</figcaption>" ++ NL2.

Definition pre_filter (n : node) : bool :=
  String.eqb (nodeName n) "PRE" &&
  match querySelector (ByTag "code") n with Some _ => false | None => true end.

Definition pre_replacement (content : string) (n : place) : string :=
  let language :=
    match getAttribute "data-wetm-language" (this n) with
    | Some v => if truthy v then v else ""
    | None => ""
    end in
  NL2 ++ "```" ++ language ++ NL ++ textContent (this n) ++ NL ++ "```" ++ NL2.

Definition wpBlockTable_filter (n : node) : bool :=
  String.eqb (nodeName n) "FIGURE" && classList_contains "wp-block-table" n.

Definition wpBlockTable_replacement (content : string) (n : place) : string :=
  let tableMarkdown :=
    match querySelector (ByTag "table") (this n) with
    | Some table => turndown (outerHTML table)
    | None => ""
    end in
  match querySelector (ByTag "figcaption") (this n) with
  | Some figcaption =>
      let captionMarkdown := turndown (outerHTML figcaption) in
      tableMarkdown ++ NL2 ++ captionMarkdown
  | None => tableMarkdown
  end.

Definition wpEmbedYoutube_filter (n : node) : bool :=
  String.eqb (nodeName n) "FIGURE" && classList_contains "wp-block-embed-youtube" n.

Definition youtube_iframe (videoId : string) : string :=
  NL2 ++ "<iframe width=" ++ DQ ++ "560" ++ DQ ++ " height=" ++ DQ ++ "315" ++ DQ ++
  " src=" ++ DQ ++ "https://www.youtube.com/embed/" ++ videoId ++ DQ ++
  " title=" ++ DQ ++ "YouTube video player" ++ DQ ++
  " frameborder=" ++ DQ ++ "0" ++ DQ ++
  " allow=" ++ DQ ++
  "accelerometer; autoplay; clipboard-write; encrypted-media; gyroscope; picture-in-picture"
  ++ DQ ++ " allowfullscreen></iframe>" ++ NL2.

Definition wpEmbedYoutube_replacement (content : string) (n : place) : string :=
  match querySelector (ByClass "wp-block-embed__wrapper") (this n) with
  | Some wrapper =>
      let url := trim (textContent wrapper) in
      let videoId := extractYoutubeVideoId url in
      if truthy videoId then youtube_iframe videoId else content
  | None => content
  end.

(** The rules in the order [initTurndownService] adds them. *)
Record rule : Type := Rule {
  rule_name : string;
  filter : node -> bool;
  replacement : string -> place -> string
}.

Definition initTurndownService : list rule :=
  [ Rule "tweet" tweet_filter tweet_replacement;
    Rule "codepen" codepen_filter codepen_replacement;
    Rule "script" script_filter script_replacement;
    Rule "iframe" iframe_filter iframe_replacement;
    Rule "figure" figure_filter figure_replacement;
    Rule "figcaption" figcaption_filter figcaption_replacement;
    Rule "pre" pre_filter pre_replacement;
    Rule "wpBlockTable" wpBlockTable_filter wpBlockTable_replacement;
    Rule "wpEmbedYoutube" wpEmbedYoutube_filter wpEmbedYoutube_replacement ].

(** The search among the added rules ([findRule] on the rules array):
    [addRule] puts a rule in front of the ones added before it, so the
    last rule added whose filter accepts the node is found.  This is not
    yet the rule that is applied: see [forNode]. *)
Definition rule_for (n : node) : option rule :=
  find (fun r => filter r n) (rev initTurndownService).

(** [node.isBlank], the test the converter makes on a node before it
    looks at any rule. *)
Variable isBlank : node -> bool.

(** The rule the converter applies to a node ([Rules.forNode]): its own
    blank rule when the node is blank, whatever the filters say; else
    the rule found among the added ones; else one of its own rules. *)
Inductive applied : Type :=
| BlankRule
| AddedRule (name : string)
| LibraryRule.

Definition forNode (n : node) : applied :=
  if isBlank n then BlankRule
  else match rule_for n with
       | Some r => AddedRule (rule_name r)
       | None => LibraryRule
       end.

End Rules.

(* ================================================================== *)
(** * A serializer and a converter to evaluate examples with

    The serializer ([outerHTML]) and the converter ([turndown]) are
    parameters of the rules and of [getPostContent], and the general
    statements below hold for every serializer and every converter.
    Where a closed example needs one, [serialize] writes a node the way
    the HTML fragment serialization algorithm does, and [decode_text]
    is some converter: it decodes three character references and
    copies everything else.  It is not the Turndown converter, which
    also collapses white space, escapes Markdown and drops comments, and
    nothing is concluded from it about what Turndown returns. *)

Module Sample.

(** Escaping a string: the ampersand, the no-break space, [<] and [>],
    and in an attribute value the double quote as well. *)
Definition nbsp : ascii := ascii_of_nat 160.

Definition escape_char (attribute : bool) (a : ascii) : string :=
  if Ascii.eqb a "&" then "&amp;"
  else if Ascii.eqb a nbsp then "&nbsp;"
  else if Ascii.eqb a "<" then "&lt;"
  else if Ascii.eqb a ">" then "&gt;"
  else if attribute && Ascii.eqb a dq then "&quot;"
  else String a "".

Fixpoint escape_text (s : string) : string :=
  match s with
  | "" => ""
  | String a s' => escape_char false a ++ escape_text s'
  end.

Fixpoint escape_value (s : string) : string :=
  match s with
  | "" => ""
  | String a s' => escape_char true a ++ escape_value s'
  end.

Fixpoint write_attributes (attrs : list (string * string)) : string :=
  match attrs with
  | [] => ""
  | (k, v) :: attrs' =>
      " " ++ k ++ "=" ++ DQ ++ escape_value v ++ DQ ++ write_attributes attrs'
  end.

Definition void (t : string) : bool :=
  existsb (String.eqb t)
    ["area"; "base"; "basefont"; "bgsound"; "br"; "col"; "embed"; "frame"; "hr";
     "img"; "input"; "keygen"; "link"; "meta"; "param"; "source"; "track"; "wbr"].

Definition raw_text (t : string) : bool :=
  existsb (String.eqb t)
    ["style"; "script"; "xmp"; "iframe"; "noembed"; "noframes"; "plaintext"].

Fixpoint write (raw : bool) (n : node) : string :=
  match n with
  | Text d => if raw then d else escape_text d
  | Comment d => "<!--" ++ d ++ "-->"
  | Element t attrs kids =>
      "<" ++ t ++ write_attributes attrs ++ ">" ++
      (if void t then ""
       else (fix inner (l : list node) : string :=
               match l with
               | [] => ""
               | kid :: l' => write (raw_text t) kid ++ inner l'
               end) kids ++ "</" ++ t ++ ">")
  end.

Definition serialize (n : node) : string := write false n.

(** A blank test to evaluate examples with: the text of the node is
    white space only.  The converter's own test makes exceptions to it
    (void elements, and elements that mean something when they are
    empty), which the examples do not touch. *)
Definition white_text (n : node) : bool := String.eqb (trim (textContent n)) "".

Fixpoint decode_text (s : string) : string :=
  match s with
  | "" => ""
  | String a s' =>
      if prefix "&lt;" s then String "<" (decode_text (drop 3 s'))
      else if prefix "&gt;" s then String ">" (decode_text (drop 3 s'))
      else if prefix "&amp;" s then String "&" (decode_text (drop 4 s'))
      else String a (decode_text s')
  end.

End Sample.

(* ================================================================== *)
(** * The vocabulary of the statements *)

(** Every character of [w] is in the class [p]. *)
Fixpoint all_chars (p : ascii -> bool) (w : string) : bool :=
  match w with
  | "" => true
  | String b w' => p b && all_chars p w'
  end.

(** The longest prefix of characters of a class, and what follows it. *)
Fixpoint run (p : ascii -> bool) (s : string) : string :=
  match s with
  | String b s' => if p b then String b (run p s') else ""
  | "" => ""
  end.

Fixpoint skip (p : ascii -> bool) (s : string) : string :=
  match s with
  | String b s' => if p b then skip p s' else s
  | "" => ""
  end.

(** [derives icase r w c c']: the pattern [r] matches exactly the text
    [w], turning the captures [c] into [c']. *)
Inductive derives (icase : bool) : regex -> string -> caps -> caps -> Prop :=
| d_eps c : derives icase Eps "" c c
| d_chr a b c :
    canon icase a = canon icase b -> derives icase (Chr a) (String b "") c c
| d_cls p b c : p b = true -> derives icase (Cls p) (String b "") c c
| d_seq r1 r2 w1 w2 c c1 c2 :
    derives icase r1 w1 c c1 -> derives icase r2 w2 c1 c2 ->
    derives icase (Seq r1 r2) (w1 ++ w2) c c2
| d_alt_l r1 r2 w c c1 : derives icase r1 w c c1 -> derives icase (Alt r1 r2) w c c1
| d_alt_r r1 r2 w c c1 : derives icase r2 w c c1 -> derives icase (Alt r1 r2) w c c1
| d_star g p w c : all_chars p w = true -> derives icase (Star g p) w c c
| d_group n r w c c1 :
    derives icase r w c c1 -> derives icase (Group n r) w c ((n, w) :: c1).

(** A pattern without capture groups, and the texts a pattern matches
    when no captures are at stake. *)
Fixpoint group_free (r : regex) : bool :=
  match r with
  | Seq r1 r2 | Alt r1 r2 => group_free r1 && group_free r2
  | Group _ _ => false
  | _ => true
  end.

Definition matches (icase : bool) (r : regex) (w : string) : Prop :=
  derives icase r w [] [].

(** The text of [s] up to the first occurrence of [sep] (all of [s]
    when there is none), and the text after that occurrence. *)
Definition upto (sep s : string) : string :=
  match cut sep s with
  | Some (b, _) => b
  | None => s
  end.

Definition after_first (sep s : string) : string :=
  match cut sep s with
  | Some (_, a) => a
  | None => ""
  end.

(** The identifier as the specification words it: what follows the
    first [opening], up to the next [closing]. *)
Definition segment_between (opening closing url : string) : string :=
  upto closing (after_first opening url).

Definition space : ascii -> bool := just " "%char.

(** The match attempt of [/(-|\d+\.) +/] at the start of a string,
    computed directly: the marker, and what is left after the spaces. *)
Definition marker_at (s : string) : option (string * string) :=
  match s with
  | String b t =>
      if Ascii.eqb "-" b then
        match t with
        | String c t' => if space c then Some ("-", skip space t') else None
        | "" => None
        end
      else if digit b then
        match skip digit t with
        | String d (String c t') =>
            if Ascii.eqb "." d && space c
            then Some (String b (run digit t) ++ ".", skip space t')
            else None
        | _ => None
        end
      else None
  | "" => None
  end.

(** A list marker: a dash, or digits and a dot. *)
Inductive marker : string -> Prop :=
| marker_dash : marker "-"
| marker_number b ds :
    digit b = true -> all_chars digit ds = true -> marker (String b ds ++ ".").

(** [s] does not start with a space. *)
Definition no_lead (s : string) : Prop := skip space s = s.

(** What stands between the angle brackets of a more separator:
    [!--more--], or [!--more], a space, a label on one line, [--]. *)
Inductive more_body : string -> Prop :=
| more_plain : more_body "!--more--"
| more_labelled label :
    all_chars dot label = true -> more_body ("!--more " ++ label ++ "--").

(** The four parts of a match of the image pattern: the opening up to
    the quote after [src=], what is skipped, the file name, the closing
    from the quote to the next [>]. *)
Definition img_src_parts (opening skipped file closing : string) : Prop :=
  matches true re_img_open opening /\
  all_chars dot skipped = true /\
  matches true re_img_file file /\
  matches true re_img_close closing.

(** The extensions of the image pattern, in upper case. *)
Definition image_extensions : list string := ["GIF"; "JPG"; "JPEG"; "PNG"; "WEBP"].

(** A character that is not a letter from A to Z or a to z. *)
Definition caseless (a : ascii) : bool :=
  let n := nat_of_ascii a in
  negb (((65 <=? n)%nat && (n <=? 90)%nat) || ((97 <=? n)%nat && (n <=? 122)%nat)).

Definition is_letter (a : ascii) : bool := negb (caseless a).

(** The image pattern after its first group. *)
Definition re_img_tail : regex :=
  Seq (Star false dot) (Seq (Group 2 re_img_file) (Group 3 re_img_close)).

Definition SRC : string := "src=" ++ DQ.

(** A character of a path before the file name: not a line terminator,
    not a quote, not [>]. *)
Definition path_char (b : ascii) : bool := dot b && except dq b && except ">" b.

(** A character of a file name: not a slash, not a quote, not [>]. *)
Definition name_char (b : ascii) : bool := not_slash_quote b && except ">" b.

(** An img tag [<img ATTRS src="DIR NAME.EXT" MORE>] written plainly: no
    [>] inside the tag, the path before the file name empty or ending in
    a slash and on one line, a recognised extension, and no other
    [src=] with a quote after this one inside the tag. *)
Record plain_img (attrs dir name ext more : string) : Prop := {
  plain_attrs : all_chars (except ">") attrs = true;
  plain_dir : all_chars path_char dir = true;
  plain_dir_end : dir = "" \/ exists dir0, dir = dir0 ++ "/";
  plain_name : name <> "" /\ all_chars name_char name = true;
  plain_ext : In (toUpperCase ext) image_extensions;
  plain_more : all_chars (except ">") more = true;
  plain_last_src :
    includes (toUpperCase SRC)
      (toUpperCase (dir ++ name ++ "." ++ ext ++ DQ ++ more)) = false
}.


(** Nodes to evaluate the rules on. *)
Definition youtube_figure (url : string) : node :=
  Element "figure" [("class", "wp-block-embed is-type-video wp-block-embed-youtube")]
    [Element "div" [("class", "wp-block-embed__wrapper")] [Text (LF ++ url ++ LF)]].

Definition caption_only_table_figure : node :=
  Element "figure" [("class", "wp-block-table")]
    [Element "figcaption" [] [Text "Prices"]].

Definition empty_table_figure : node :=
  Element "figure" [("class", "wp-block-table")] [Element "p" [] [Text "no table"]].

(** An embed block with a caption, and its children as the converter
    hands them to the figure rule: the wrapper is a block, so its text
    stands between blank lines, and the caption rule's output follows. *)
Definition captioned_embed : node :=
  Element "figure" [("class", "wp-block-embed")]
    [Element "div" [("class", "wp-block-embed__wrapper")] [Text "https://vimeo.com/1"];
     Element "figcaption" [] [Text "cap"]].

Definition captioned_embed_children : string :=
  NL2 ++ "https://vimeo.com/1" ++
  figcaption_replacement "cap" (At None (Element "figcaption" [] [Text "cap"])).

(** The embed code of a video player with the prefixed forms of the
    attribute before the attribute itself, and its serialization. *)
Definition vimeo_iframe : node :=
  Element "iframe"
    [("src", "https://player.vimeo.com/video/1"); ("webkitallowfullscreen", "");
     ("mozallowfullscreen", ""); ("allowfullscreen", "")] [].

Definition vimeo_iframe_html : string :=
  "<iframe src=" ++ DQ ++ "https://player.vimeo.com/video/1" ++ DQ ++
  " webkitallowfullscreen=" ++ DQ ++ DQ ++ " mozallowfullscreen=" ++ DQ ++ DQ ++
  " allowfullscreen=" ++ DQ ++ DQ ++ "></iframe>".

(** A script with a data attribute whose name ends in async before the
    async attribute, and its serialization. *)
Definition lazy_script : node :=
  Element "script" [("data-async", ""); ("async", ""); ("src", "https://example.com/w.js")] [].

Definition lazy_script_html : string :=
  "<script data-async=" ++ DQ ++ DQ ++ " async=" ++ DQ ++ DQ ++
  " src=" ++ DQ ++ "https://example.com/w.js" ++ DQ ++ "></script>".

Definition code_block : node :=
  Element "pre" [("data-wetm-language", "python")] [Text "total = a -  b"].

(** ** Vocabulary of the further properties *)

(** The names of all the rules whose filter accepts a node, in the
    order the rules were added. *)
Definition accepting (outerHTML : node -> string) (turndown : string -> string)
    (n : node) : list string :=
  map rule_name
    (List.filter (fun r => filter r n) (initTurndownService outerHTML turndown)).

(** [s] with its spaces removed. *)
Fixpoint without_spaces (s : string) : string :=
  match s with
  | "" => ""
  | String b s' => if space b then without_spaces s' else String b (without_spaces s')
  end.

(** A line break as the first and the fourth pattern of [getPostContent]
    read it: LF, or CR LF. *)
Inductive line_break : string -> Prop :=
| break_lf : line_break LF
| break_crlf : line_break (CR ++ LF).

(** The text that stands before the language in a block comment: a
    space, an opening brace, the quoted word language, a colon and a
    quote. *)
Definition LANGUAGE_KEY : string :=
  " {" ++ DQ ++ "language" ++ DQ ++ ":" ++ DQ.

(** A block comment that names a language, the line break after it and
    the start of the pre tag: what the fourth pattern matches. *)
Definition block_open (kind lang nl : string) : string :=
  "<!-- wp:" ++ kind ++ LANGUAGE_KEY ++ lang ++ DQ ++ "} -->" ++ nl ++ "<pre ".

(** The attribute the fourth rewrite puts after the start of the pre
    tag. *)
Definition language_attribute (lang : string) : string :=
  "data-wetm-language=" ++ DQ ++ lang ++ DQ ++ " ".

(** The block kind and the language are not empty and stand on one
    line. *)
Record language_block (kind lang nl : string) : Prop := {
  block_kind : kind <> "" /\ all_chars dot kind = true;
  block_lang : lang <> "" /\ all_chars dot lang = true;
  block_break : line_break nl
}.

(** The fourth pattern after the language: the closing of the comment,
    the line break and the start of the pre tag; and the pattern of the
    key, followed by [r]. *)
Definition re_block_close : regex :=
  Seqs [Chr dq; Str "} -->"; Opt (Chr cr); Chr lf; Str "<pre "].

Definition re_language_key (r : regex) : regex :=
  Seqs [Str " {"; Chr dq; Str "language"; Chr dq; Str ":"; Chr dq; r].

(** A character that [trim] keeps. *)
Definition not_white (b : ascii) : bool := negb (is_white b).

(** The wrapper element of [youtube_figure]. *)
Definition youtube_wrapper (url : string) : node :=
  Element "div" [("class", "wp-block-embed__wrapper")] [Text (LF ++ url ++ LF)].

(* ================================================================== *)
(** * Facts about strings *)

Section StringFacts.

Lemma append_nil_r (s : string) : s ++ "" = s.
Proof. induction s; simpl; congruence. Qed.

Lemma append_assoc (a b c : string) : (a ++ b) ++ c = a ++ (b ++ c).
Proof. induction a; simpl; congruence. Qed.

Lemma length_append (a b : string) :
  String.length (a ++ b) = String.length a + String.length b.
Proof. induction a; simpl; congruence. Qed.

Lemma append_inv_head (a b c : string) : a ++ b = a ++ c -> b = c.
Proof. induction a; simpl; intros H; [assumption | injection H; auto]. Qed.

Lemma consumed_append (w s : string) : consumed (w ++ s) s = w.
Proof.
  unfold consumed. rewrite length_append.
  replace (String.length w + String.length s - String.length s)
    with (String.length w) by lia.
  induction w; simpl.
  - destruct s; reflexivity.
  - congruence.
Qed.

Lemma drop_append (w s : string) : drop (String.length w) (w ++ s) = s.
Proof. induction w; simpl; [destruct s; reflexivity | assumption]. Qed.

Lemma prefix_append (p s : string) : prefix p (p ++ s) = true.
Proof.
  induction p as [|a p IH]; simpl.
  - destruct s; reflexivity.
  - destruct (ascii_dec a a); [assumption | congruence].
Qed.

Lemma prefix_split (p s : string) :
  prefix p s = true -> s = p ++ drop (String.length p) s.
Proof.
  revert s; induction p as [|a p IH]; intros s H; simpl.
  - destruct s; reflexivity.
  - destruct s as [|b s]; simpl in H; [discriminate|].
    destruct (ascii_dec a b); [subst | discriminate].
    f_equal. apply IH, H.
Qed.

(** [cut] finds an occurrence, and it is the first one. *)
Lemma cut_some (pat s b a : string) :
  cut pat s = Some (b, a) -> s = b ++ pat ++ a.
Proof.
  revert b a; induction s as [|c s IH]; intros b a.
  - destruct pat; simpl; [|discriminate].
    intros H; injection H as <- <-. reflexivity.
  - cbn [cut]. destruct (prefix pat (String c s)) eqn:E.
    + intros H; injection H as <- <-. apply (prefix_split _ _ E).
    + destruct (cut pat s) as [[b' a']|]; [|discriminate].
      intros H; injection H as <- <-. simpl. f_equal. apply IH; reflexivity.
Qed.

Lemma cut_first (pat s b a : string) :
  cut pat s = Some (b, a) ->
  forall p c q, b = p ++ String c q -> prefix pat (String c q ++ pat ++ a) = false.
Proof.
  revert b a; induction s as [|x s IH]; intros b a.
  - destruct pat; simpl; [|discriminate].
    intros H; injection H as <- <-. intros p c q E. destruct p; discriminate.
  - cbn [cut]. destruct (prefix pat (String x s)) eqn:E.
    + intros H; injection H as <- <-. intros p c q F. destruct p; discriminate.
    + destruct (cut pat s) as [[b' a']|] eqn:C; [|discriminate].
      intros H; injection H as <- <-. intros p c q F.
      destruct p as [|y p]; simpl in F.
      * injection F as <- <-. cbn [append].
        rewrite <- (cut_some _ _ _ _ C). assumption.
      * injection F as <- F. apply (IH _ _ eq_refl p c q F).
Qed.

Lemma cut_none (pat s : string) :
  cut pat s = None -> forall p q, s = p ++ q -> prefix pat q = false.
Proof.
  induction s as [|x s IH].
  - destruct pat; simpl; [discriminate|].
    intros _ p q E. destruct p; [|discriminate]. simpl in E. subst q. reflexivity.
  - cbn [cut]. destruct (prefix pat (String x s)) eqn:E; [discriminate|].
    destruct (cut pat s) as [[b a]|] eqn:C; [discriminate|].
    intros _ p q F. destruct p as [|y p]; simpl in F.
    + subst q. assumption.
    + injection F as <- F. apply (IH eq_refl p q F).
Qed.

Lemma cut_length (pat s b a : string) :
  cut pat s = Some (b, a) ->
  String.length s = String.length b + String.length pat + String.length a.
Proof.
  intros H. rewrite (cut_some _ _ _ _ H) at 1.
  rewrite !length_append. lia.
Qed.

Lemma includes_cut (pat s : string) :
  includes pat s = true -> exists b a, cut pat s = Some (b, a).
Proof.
  unfold includes. destruct (cut pat s) as [[b a]|]; [eauto | discriminate].
Qed.

Lemma append_inv_tail (a b c : string) : a ++ c = b ++ c -> a = b.
Proof.
  revert b; induction a as [|x a IH]; intros [|y b] H; simpl in H.
  - reflexivity.
  - exfalso. assert (L := f_equal String.length H). simpl in L.
    rewrite length_append in L. lia.
  - exfalso. assert (L := f_equal String.length H). simpl in L.
    rewrite length_append in L. lia.
  - injection H as -> H. f_equal. auto.
Qed.

Lemma append_eq_append (a b c d : string) :
  a ++ b = c ++ d ->
  (exists u, c = a ++ u /\ b = u ++ d) \/ (exists u, a = c ++ u /\ d = u ++ b).
Proof.
  revert c; induction a as [|x a IH]; intros c H.
  - left. exists c. auto.
  - destruct c as [|y c].
    + right. exists (String x a). auto.
    + simpl in H. injection H as -> H.
      destruct (IH _ H) as [(u & -> & ->)|(u & -> & ->)].
      * left. exists u. auto.
      * right. exists u. auto.
Qed.

Lemma toUpperCase_append a b : toUpperCase (a ++ b) = toUpperCase a ++ toUpperCase b.
Proof. induction a; simpl; congruence. Qed.

Lemma includes_occurrence pat a b : includes pat (a ++ pat ++ b) = true.
Proof.
  unfold includes. destruct (cut pat (a ++ pat ++ b)) as [[? ?]|] eqn:C; [reflexivity|].
  pose proof (cut_none _ _ C a _ eq_refl) as P.
  rewrite prefix_append in P. discriminate.
Qed.

Lemma all_chars_append p a b :
  all_chars p (a ++ b) = all_chars p a && all_chars p b.
Proof.
  induction a as [|x a IH]; simpl; [reflexivity|].
  rewrite IH, andb_assoc. reflexivity.
Qed.

Lemma all_chars_weaken (p q : ascii -> bool) w :
  (forall b, p b = true -> q b = true) -> all_chars p w = true -> all_chars q w = true.
Proof.
  intros I. induction w as [|b w IH]; simpl; [reflexivity|].
  intros H. apply andb_prop in H. destruct H as [Pb H].
  rewrite (I b Pb). apply IH, H.
Qed.

Lemma all_chars_and p q w :
  all_chars (fun b => p b && q b) w = all_chars p w && all_chars q w.
Proof.
  induction w as [|b w IH]; simpl; [reflexivity|]. rewrite IH.
  destruct (p b), (q b), (all_chars p w), (all_chars q w); reflexivity.
Qed.

Lemma all_chars_suffix p u b v :
  all_chars p (u ++ String b v) = true -> p b = true.
Proof.
  rewrite all_chars_append. intros H. apply andb_prop in H. destruct H as [_ H].
  simpl in H. apply andb_prop in H. apply H.
Qed.

(** Cutting a text at the first occurrence of a character. *)
Lemma before_first_char c u v a y :
  all_chars (except c) u = true -> all_chars (except c) a = true ->
  u ++ v = a ++ String c y ->
  exists w, a = u ++ w /\ v = w ++ String c y.
Proof.
  revert a. induction u as [|b u IH]; intros a U A E.
  - exists a. auto.
  - simpl in U. apply andb_prop in U. destruct U as [Ub U].
    destruct a as [|x a]; simpl in E.
    + injection E as -> _. unfold except in Ub. rewrite Ascii.eqb_refl in Ub. discriminate.
    + injection E as -> E. simpl in A. apply andb_prop in A. destruct A as [_ A].
      destruct (IH a U A E) as (w & -> & ->). exists w. auto.
Qed.

Lemma first_char_unique c a b x y :
  all_chars (except c) a = true -> all_chars (except c) b = true ->
  a ++ String c x = b ++ String c y -> a = b /\ x = y.
Proof.
  intros A B E. destruct (before_first_char c a (String c x) b y A B E) as (w & -> & W).
  destruct w as [|d w]; simpl in W.
  - rewrite append_nil_r. injection W as ->. auto.
  - exfalso. injection W as <- _.
    rewrite all_chars_append in B. apply andb_prop in B. destruct B as [_ B].
    simpl in B. unfold except in B. rewrite Ascii.eqb_refl in B. discriminate.
Qed.

Lemma peel_char c b v w y :
  String b v = w ++ String c y -> b <> c ->
  exists w1, w = String b w1 /\ v = w1 ++ String c y.
Proof.
  destruct w as [|x w]; simpl; intros E N; injection E as -> E; [contradiction|].
  exists w. auto.
Qed.

Lemma suffix_of_snoc (a : ascii) : forall dir0 u b v,
  dir0 ++ String a "" = u ++ String b v -> exists w, String b v = w ++ String a "".
Proof.
  induction dir0 as [|x dir0 IH]; intros u b v E.
  - destruct u as [|y u]; simpl in E.
    + injection E as <- <-. exists "". reflexivity.
    + injection E as _ E. destruct u; discriminate.
  - destruct u as [|y u]; simpl in E.
    + injection E as <- <-. exists (String x dir0). reflexivity.
    + injection E as _ E. apply (IH _ _ _ E).
Qed.

End StringFacts.

(* ================================================================== *)
(** * The matcher against a declarative reading of patterns *)

Section MatcherFacts.

Lemma run_skip (p : ascii -> bool) (s : string) : s = run p s ++ skip p s.
Proof.
  induction s as [|b s IH]; simpl; [reflexivity|].
  destruct (p b); simpl; congruence.
Qed.

Lemma all_chars_run (p : ascii -> bool) (s : string) : all_chars p (run p s) = true.
Proof.
  induction s as [|b s IH]; simpl; [reflexivity|].
  destruct (p b) eqn:E; simpl; [rewrite E; assumption | reflexivity].
Qed.

Lemma skip_head (p : ascii -> bool) (s : string) (b : ascii) (t : string) :
  skip p s = String b t -> p b = false.
Proof.
  induction s as [|a s IH]; simpl; [discriminate|].
  destruct (p a) eqn:E; [assumption|].
  intros H; injection H as <- <-. assumption.
Qed.

Lemma skip_stop (p : ascii -> bool) (b : ascii) (t : string) :
  p b = false -> skip p (String b t) = String b t.
Proof. intros H; simpl; rewrite H; reflexivity. Qed.

Lemma skip_skip (p : ascii -> bool) (s : string) : skip p (skip p s) = skip p s.
Proof.
  destruct (skip p s) as [|b t] eqn:E; [reflexivity|].
  apply skip_stop, (skip_head _ _ _ _ E).
Qed.

Lemma skip_append (p : ascii -> bool) (w s : string) :
  all_chars p w = true -> skip p (w ++ s) = skip p s.
Proof.
  induction w as [|b w IH]; simpl; [reflexivity|].
  destruct (p b); simpl; [assumption | discriminate].
Qed.

Lemma run_append (p : ascii -> bool) (w s : string) :
  all_chars p w = true -> run p (w ++ s) = w ++ run p s.
Proof.
  induction w as [|b w IH]; simpl; [reflexivity|].
  destruct (p b); simpl; [intros H; f_equal; auto | discriminate].
Qed.

Lemma star_greedy_sound p k s r :
  star_greedy p k s = Some r ->
  exists w s', s = w ++ s' /\ all_chars p w = true /\ k s' = Some r.
Proof.
  induction s as [|b s IH]; simpl.
  - intros H. exists "", "". auto.
  - destruct (p b) eqn:E.
    + destruct (star_greedy p k s) as [r'|] eqn:G.
      * intros H; injection H as ->.
        destruct (IH eq_refl) as (w & s' & -> & A & K).
        exists (String b w), s'. simpl. rewrite E. auto.
      * intros H. exists "", (String b s). auto.
    + intros H. exists "", (String b s). auto.
Qed.

Lemma star_lazy_sound p k s r :
  star_lazy p k s = Some r ->
  exists w s', s = w ++ s' /\ all_chars p w = true /\ k s' = Some r.
Proof.
  induction s as [|b s IH]; simpl.
  - destruct (k "") eqn:K; [|discriminate].
    intros H; injection H as ->. exists "", "". auto.
  - destruct (k (String b s)) eqn:K.
    + intros H; injection H as ->. exists "", (String b s). auto.
    + destruct (p b) eqn:E; [|discriminate].
      intros H. destruct (IH H) as (w & s' & -> & A & K').
      exists (String b w), s'. simpl. rewrite E. auto.
Qed.

(** A greedy quantifier whose continuation cannot start with a
    character of the class takes the whole run. *)
Lemma star_greedy_commit p k s :
  (forall b t, p b = true -> k (String b t) = None) ->
  star_greedy p k s = k (skip p s).
Proof.
  intros C. induction s as [|b s IH]; simpl; [reflexivity|].
  destruct (p b) eqn:E; [|reflexivity].
  rewrite IH. destruct (k (skip p s)); [reflexivity|].
  apply C, E.
Qed.

(** A greedy quantifier whose continuation always succeeds takes the
    whole run. *)
Lemma star_greedy_total p k s :
  (forall t, k t <> None) -> star_greedy p k s = k (skip p s).
Proof.
  intros T. induction s as [|b s IH]; simpl; [reflexivity|].
  destruct (p b) eqn:E; [|reflexivity].
  rewrite IH. destruct (k (skip p s)) eqn:K; [reflexivity|].
  exfalso. apply (T _ K).
Qed.

Theorem m_sound icase r : forall s c k res,
  m icase r s c k = Some res ->
  exists w s' c', s = w ++ s' /\ derives icase r w c c' /\ k s' c' = Some res.
Proof.
  induction r as [ | a | p | r1 IH1 r2 IH2 | r1 IH1 r2 IH2 | g p | n r IH ];
    intros s c k res; cbn [m].
  - intros H. exists "", s, c. repeat split; [constructor | assumption].
  - destruct s as [|b s]; [discriminate|].
    destruct (Ascii.eqb_spec (canon icase a) (canon icase b)) as [E|]; [|discriminate].
    intros H. exists (String b ""), s, c. repeat split; [constructor|]; assumption.
  - destruct s as [|b s]; [discriminate|].
    destruct (p b) eqn:E; [|discriminate].
    intros H. exists (String b ""), s, c. repeat split; [constructor|]; assumption.
  - intros H. destruct (IH1 _ _ _ _ H) as (w1 & s1 & c1 & -> & D1 & H1).
    destruct (IH2 _ _ _ _ H1) as (w2 & s2 & c2 & -> & D2 & H2).
    exists (w1 ++ w2), s2, c2. rewrite append_assoc.
    repeat split; [econstructor; eassumption | assumption].
  - destruct (m icase r1 s c k) as [x|] eqn:E.
    + intros H; injection H as ->.
      destruct (IH1 _ _ _ _ E) as (w & s' & c' & -> & D & K).
      exists w, s', c'. repeat split; [apply d_alt_l|]; assumption.
    + intros H. destruct (IH2 _ _ _ _ H) as (w & s' & c' & -> & D & K).
      exists w, s', c'. repeat split; [apply d_alt_r|]; assumption.
  - destruct g; intros H;
      [apply star_greedy_sound in H | apply star_lazy_sound in H];
      destruct H as (w & s' & -> & A & K);
      exists w, s', c; (repeat split; [constructor|]; assumption).
  - intros H. destruct (IH _ _ _ _ H) as (w & s' & c' & -> & D & K).
    rewrite consumed_append in K.
    exists w, s', ((n, w) :: c'). repeat split; [constructor|]; assumption.
Qed.

Lemma match_at_sound icase r s rest c :
  match_at icase r s = Some (rest, c) ->
  exists w, s = w ++ rest /\ derives icase r w [] c.
Proof.
  unfold match_at. intros H.
  destruct (m_sound _ _ _ _ _ _ H) as (w & s' & c' & -> & D & K).
  unfold keep in K. injection K as <- <-. exists w. auto.
Qed.

(** What a successful search found: the leftmost position at which an
    attempt succeeds. *)
Lemma search_some icase r : forall s f,
  search icase r s = Some f ->
  s = before f ++ matched f ++ after f /\
  match_at icase r (matched f ++ after f) = Some (after f, groups f) /\
  derives icase r (matched f) [] (groups f) /\
  (forall p b q, before f = p ++ String b q ->
                 match_at icase r (String b q ++ matched f ++ after f) = None).
Proof.
  induction s as [|b s IH]; intros f; cbn [search].
  - destruct (match_at icase r "") as [[rest c]|] eqn:E; [|discriminate].
    intros H; injection H as <-. cbn [before matched groups after].
    destruct (match_at_sound _ _ _ _ _ E) as (w & W & D).
    destruct w; [simpl in W; subst rest | discriminate].
    repeat split; try assumption.
    intros p b q H. destruct p; discriminate.
  - destruct (match_at icase r (String b s)) as [[rest c]|] eqn:E.
    + intros H; injection H as <-. cbn [before matched groups after].
      destruct (match_at_sound _ _ _ _ _ E) as (w & W & D).
      rewrite W, consumed_append. rewrite W in E.
      repeat split; try assumption.
      intros p b' q H. destruct p; discriminate.
    + destruct (search icase r s) as [f'|] eqn:S; [|discriminate].
      intros H; injection H as <-.
      destruct (IH _ eq_refl) as (W & M & D & L).
      unfold shift; cbn [before matched groups after].
      repeat split; try assumption.
      * simpl. f_equal. assumption.
      * intros p b' q H. destruct p as [|a p]; simpl in H.
        -- injection H as <- <-. simpl. rewrite <- W. assumption.
        -- injection H as <- H. apply (L _ _ _ H).
Qed.

Lemma search_none icase r : forall s,
  search icase r s = None ->
  forall p q, s = p ++ q -> match_at icase r q = None.
Proof.
  induction s as [|b s IH]; cbn [search].
  - destruct (match_at icase r "") as [[rest c]|] eqn:E; [discriminate|].
    intros _ p q H. destruct p; [|discriminate]. simpl in H. subst q. assumption.
  - destruct (match_at icase r (String b s)) as [[rest c]|] eqn:E; [discriminate|].
    destruct (search icase r s) eqn:S; [discriminate|].
    intros _ p q H. destruct p as [|a p]; simpl in H.
    + subst q. assumption.
    + injection H as <- H. apply (IH eq_refl p q H).
Qed.

(** A search that is told where the leftmost match is. *)
Lemma search_at icase r : forall pre s rest c,
  (forall p b q, pre = p ++ String b q -> match_at icase r (String b q ++ s) = None) ->
  match_at icase r s = Some (rest, c) ->
  search icase r (pre ++ s) =
  Some (Found pre (consumed s rest) c rest).
Proof.
  induction pre as [|b pre IH]; intros s rest c L M.
  - simpl. destruct s; cbn [search]; rewrite M; reflexivity.
  - pose proof (L "" b pre eq_refl) as L0. cbn [append] in L0.
    cbn [append search]. rewrite L0.
    rewrite (IH s rest c); [reflexivity | | assumption].
    intros p b' q H. apply (L (String b p) b' q). simpl. congruence.
Qed.

Lemma replace_all_fuel_enough icase r t : forall n1 n2 s,
  String.length s < n1 -> String.length s < n2 ->
  replace_all_fuel n1 icase r t s = replace_all_fuel n2 icase r t s.
Proof.
  induction n1 as [|n1 IH]; intros n2 s L1 L2; [lia|].
  destruct n2 as [|n2]; [lia|]. cbn [replace_all_fuel].
  destruct (search icase r s) as [f|] eqn:S; [|reflexivity].
  destruct (search_some _ _ _ _ S) as (W & _).
  assert (Len : String.length s =
                String.length (before f) + String.length (matched f) +
                String.length (after f)).
  { rewrite W at 1. rewrite !length_append. lia. }
  f_equal. f_equal.
  destruct (matched f) as [|a w]; [destruct (after f) as [|b rest]|].
  - reflexivity.
  - f_equal. apply IH; simpl in Len; lia.
  - apply IH; simpl in Len; lia.
Qed.

(** One round of a global replacement. *)
Lemma replace_all_step icase r t s :
  replace_all icase r t s =
  match search icase r s with
  | None => s
  | Some f =>
      before f ++ expand t (groups f) ++
      match matched f, after f with
      | "", String b rest => String b (replace_all icase r t rest)
      | "", "" => ""
      | _, rest => replace_all icase r t rest
      end
  end.
Proof.
  unfold replace_all at 1. cbn [replace_all_fuel].
  destruct (search icase r s) as [f|] eqn:S; [|reflexivity].
  destruct (search_some _ _ _ _ S) as (W & _).
  assert (Len : String.length s =
                String.length (before f) + String.length (matched f) +
                String.length (after f)).
  { rewrite W at 1. rewrite !length_append. lia. }
  f_equal. f_equal. unfold replace_all.
  destruct (matched f) as [|a w]; [destruct (after f) as [|b rest]|].
  - reflexivity.
  - f_equal. apply replace_all_fuel_enough; simpl in Len; lia.
  - apply replace_all_fuel_enough; simpl in Len; lia.
Qed.

Lemma skip_append_stop p q d r Z :
  skip p q = String d r -> skip p (q ++ Z) = String d (r ++ Z).
Proof.
  induction q as [|a q IH]; simpl; [discriminate|].
  destruct (p a); [assumption|].
  intros H; injection H as <- <-. reflexivity.
Qed.

Lemma skip_nil_all p q : skip p q = "" -> all_chars p q = true.
Proof.
  induction q as [|a q IH]; simpl; [reflexivity|].
  destruct (p a); [assumption | discriminate].
Qed.

Lemma star_greedy_here p k s : k s <> None -> star_greedy p k s <> None.
Proof.
  intros K. destruct s as [|b s]; simpl; [assumption|].
  destruct (p b); [|assumption].
  destruct (star_greedy p k s); [discriminate | assumption].
Qed.

Lemma star_greedy_complete p k w s :
  all_chars p w = true -> k s <> None -> star_greedy p k (w ++ s) <> None.
Proof.
  intros A K. induction w as [|b w IH]; simpl.
  - apply star_greedy_here, K.
  - simpl in A. apply andb_prop in A. destruct A as [-> A].
    specialize (IH A). destruct (star_greedy p k (w ++ s)); [discriminate | contradiction].
Qed.

Lemma star_lazy_complete p k w s :
  all_chars p w = true -> k s <> None -> star_lazy p k (w ++ s) <> None.
Proof.
  intros A K. induction w as [|b w IH]; cbn [append].
  - destruct s; simpl; destruct (k _); congruence.
  - simpl in A. apply andb_prop in A. destruct A as [Pb A].
    cbn [star_lazy]. destruct (k (String b (w ++ s))); [discriminate|].
    rewrite Pb. apply IH, A.
Qed.

(** The matcher finds a match whenever the pattern has one that the
    continuation accepts. *)
Theorem m_complete icase r w c c' :
  derives icase r w c c' ->
  forall s k, k s c' <> None -> m icase r (w ++ s) c k <> None.
Proof.
  induction 1 as [ c | a b c E | p b c E | r1 r2 w1 w2 c c1 c2 D1 IH1 D2 IH2
                 | r1 r2 w c c1 D IH | r1 r2 w c c1 D IH | g p w c A
                 | n r w c c1 D IH ]; intros s k K; cbn [m append].
  - assumption.
  - rewrite E, Ascii.eqb_refl. assumption.
  - rewrite E. assumption.
  - rewrite append_assoc. apply IH1. apply IH2, K.
  - specialize (IH s k K). destruct (m icase r1 (w ++ s) c k); [discriminate | contradiction].
  - destruct (m icase r1 (w ++ s) c k); [discriminate|]. apply IH, K.
  - destruct g; [apply star_greedy_complete | apply star_lazy_complete]; assumption.
  - apply IH. rewrite consumed_append. assumption.
Qed.

Lemma match_at_complete icase r w c rest :
  derives icase r w [] c -> match_at icase r (w ++ rest) <> None.
Proof. intros D. apply (m_complete _ _ _ _ _ D). discriminate. Qed.

Lemma derives_frame icase r w c c' :
  derives icase r w c c' -> group_free r = true ->
  c' = c /\ forall d, derives icase r w d d.
Proof.
  induction 1; cbn [group_free]; intros G;
    try (apply andb_prop in G; destruct G as [G1 G2]);
    try discriminate.
  - split; [reflexivity | intros d; constructor].
  - split; [reflexivity | intros d; constructor; assumption].
  - split; [reflexivity | intros d; constructor; assumption].
  - destruct (IHderives1 G1) as [-> F1]. destruct (IHderives2 G2) as [-> F2].
    split; [reflexivity | intros d; econstructor; [apply F1 | apply F2]].
  - destruct (IHderives G1) as [-> F]. split; [reflexivity | intros d; apply d_alt_l, F].
  - destruct (IHderives G2) as [-> F]. split; [reflexivity | intros d; apply d_alt_r, F].
  - split; [reflexivity | intros d; constructor; assumption].
Qed.

Lemma star_greedy_skip p k w t r :
  all_chars p w = true -> star_greedy p k t = Some r ->
  star_greedy p k (w ++ t) = Some r.
Proof.
  intros A H. induction w as [|b w IH]; cbn [append]; [assumption|].
  simpl in A. apply andb_prop in A. destruct A as [Pb A].
  cbn [star_greedy]. rewrite Pb, (IH A). reflexivity.
Qed.

Lemma star_greedy_only_here p k t :
  (forall u v, t = u ++ v -> u <> "" -> all_chars p u = true -> k v = None) ->
  star_greedy p k t = k t.
Proof.
  revert k. induction t as [|b t IH]; intros k H; cbn [star_greedy]; [reflexivity|].
  destruct (p b) eqn:Pb; [|reflexivity].
  assert (E : star_greedy p k t = None).
  { destruct t as [|c t'].
    - simpl. apply (H (String b "") ""); [reflexivity | discriminate | simpl; rewrite Pb; reflexivity].
    - rewrite IH.
      + apply (H (String b "") (String c t')); [reflexivity | discriminate | simpl; rewrite Pb; reflexivity].
      + intros u v E U A. apply (H (String b u) v); [simpl; congruence | discriminate | simpl; rewrite Pb; assumption]. }
  rewrite E. reflexivity.
Qed.

Lemma star_lazy_skip p k w R :
  all_chars p w = true ->
  (forall u b v, w = u ++ String b v -> k (String b v ++ R) = None) ->
  star_lazy p k (w ++ R) = star_lazy p k R.
Proof.
  induction w as [|b w IH]; intros A H; cbn [append]; [reflexivity|].
  simpl in A. apply andb_prop in A. destruct A as [Pb A].
  cbn [star_lazy]. pose proof (H "" b w eq_refl) as H0. cbn [append] in H0.
  rewrite H0, Pb. apply IH; [assumption|].
  intros u c v E. apply (H (String b u) c v). simpl. congruence.
Qed.

Lemma star_lazy_here p k R r : k R = Some r -> star_lazy p k R = Some r.
Proof. intros H. destruct R; simpl; rewrite H; reflexivity. Qed.

End MatcherFacts.

Ltac invd H := inversion H; subst; clear H.

Ltac inv_derives :=
  repeat match goal with
  | H : derives _ Eps _ _ _ |- _ => invd H
  | H : derives _ (Chr _) _ _ _ |- _ => invd H
  | H : derives _ (Cls _) _ _ _ |- _ => invd H
  | H : derives _ (Seq _ _) _ _ _ |- _ => invd H
  | H : derives _ (Alt _ _) _ _ _ |- _ => invd H
  | H : derives _ (Star _ _) _ _ _ |- _ => invd H
  | H : derives _ (Group _ _) _ _ _ |- _ => invd H
  end.

Ltac norm_append :=
  repeat first [rewrite append_assoc | progress cbn [append]].

(* ================================================================== *)
(** * extractYoutubeVideoId: what it returns *)

Section SplitFacts.

(** The rounds of [split] are never used up, and one round of it. *)
Lemma split_fuel_enough (x : ascii) (sep : string) : forall n1 n2 s,
  String.length s < n1 -> String.length s < n2 ->
  split_fuel n1 (String x sep) s = split_fuel n2 (String x sep) s.
Proof.
  induction n1 as [|n1 IH]; intros n2 s L1 L2; [lia|].
  destruct n2 as [|n2]; [lia|]. cbn [split_fuel].
  destruct (cut (String x sep) s) as [[b a]|] eqn:C; [|reflexivity].
  pose proof (cut_length _ _ _ _ C) as L. simpl in L.
  f_equal. apply IH; lia.
Qed.

Lemma split_step (x : ascii) (sep s : string) :
  split (String x sep) s =
  match cut (String x sep) s with
  | None => [s]
  | Some (b, a) => b :: split (String x sep) a
  end.
Proof.
  unfold split.
  change (split_fuel (S (String.length s)) (String x sep) s)
    with (match cut (String x sep) s with
          | None => [s]
          | Some (b, a) => b :: split_fuel (String.length s) (String x sep) a
          end).
  destruct (cut (String x sep) s) as [[b a]|] eqn:C; [|reflexivity].
  pose proof (cut_length _ _ _ _ C) as L. simpl in L.
  f_equal. apply split_fuel_enough; lia.
Qed.

Lemma split_fuel_first (f : nat) (sep s : string) :
  nth_error (split_fuel (S f) sep s) 0 = Some (upto sep s).
Proof.
  unfold upto; simpl. destruct (cut sep s) as [[b a]|]; reflexivity.
Qed.

Lemma split_first (a : ascii) (sep s : string) :
  nth_error (split (String a sep) s) 0 = Some (upto (String a sep) s).
Proof. unfold split. apply split_fuel_first. Qed.

Lemma split_second (a : ascii) (sep s : string) :
  includes (String a sep) s = true ->
  nth_error (split (String a sep) s) 1 =
  Some (upto (String a sep) (after_first (String a sep) s)).
Proof.
  intros H. destruct (includes_cut _ _ H) as (b & t & E).
  pose proof (cut_length _ _ _ _ E) as L.
  unfold split, after_first. cbn [split_fuel]. rewrite E.
  destruct (String.length s) as [|n] eqn:Ls; [simpl in L; lia|].
  cbn [nth_error]. apply split_fuel_first.
Qed.

Lemma element_first (a : ascii) (sep s : string) :
  element (split (String a sep) s) 0 = Normal (upto (String a sep) s).
Proof. unfold element. rewrite split_first. reflexivity. Qed.

Lemma element_second (a : ascii) (sep s : string) :
  includes (String a sep) s = true ->
  element (split (String a sep) s) 1 =
  Normal (upto (String a sep) (after_first (String a sep) s)).
Proof. intros H. unfold element. rewrite (split_second _ _ _ H). reflexivity. Qed.

(** The body of the [try] block always completes normally. *)
Lemma extractYoutubeVideoId_try_value (url : string) :
  extractYoutubeVideoId_try url =
  Normal
    (if includes "watch?v=" url
     then upto "&" (upto "watch?v=" (after_first "watch?v=" url))
     else if includes "youtu.be/" url
          then upto "?" (upto "youtu.be/" (after_first "youtu.be/" url))
          else "").
Proof.
  unfold extractYoutubeVideoId_try.
  destruct (includes "watch?v=" url) eqn:W.
  - rewrite (element_second _ _ _ W). cbn [bind]. apply element_first.
  - destruct (includes "youtu.be/" url) eqn:Y; [|reflexivity].
    rewrite (element_second _ _ _ Y). cbn [bind]. apply element_first.
Qed.

End SplitFacts.

(* ================================================================== *)
(** * The rules *)

(** What the figure rule does do: without a caption the children pass
    through; with one they are wrapped and the first run of four
    newlines is replaced by two. *)
Lemma figure_replacement_cases (content : string) (n : place) :
  figure_replacement content n =
  match querySelector (ByTag "figcaption") (this n) with
  | None => content
  | Some _ =>
      replace NL4 NL2 (NL2 ++ "<figure>" ++ NL2 ++ content ++ NL2 ++ "</figure>" ++ NL2)
  end.
Proof. reflexivity. Qed.

(** [replace] rewrites the first occurrence of the pattern and nothing
    else. *)
Lemma replace_spec (pat by_ s : string) :
  (includes pat s = false /\ replace pat by_ s = s) \/
  (exists b a,
      s = b ++ pat ++ a /\ replace pat by_ s = b ++ by_ ++ a /\
      forall p c q, b = p ++ String c q ->
                    prefix pat (String c q ++ pat ++ a) = false).
Proof.
  unfold replace, includes. destruct (cut pat s) as [[b a]|] eqn:E.
  - right. exists b, a. split; [apply (cut_some _ _ _ _ E)|].
    split; [reflexivity | apply (cut_first _ _ _ _ E)].
  - left. split; reflexivity.
Qed.

(** [upto] and [after_first] cut a string at the first occurrence of
    the separator. *)
Lemma upto_after_first (sep s : string) :
  (includes sep s = false /\ upto sep s = s /\ after_first sep s = "") \/
  (includes sep s = true /\
   s = upto sep s ++ sep ++ after_first sep s /\
   forall p c q, upto sep s = p ++ String c q ->
                 prefix sep (String c q ++ sep ++ after_first sep s) = false).
Proof.
  unfold upto, after_first, includes. destruct (cut sep s) as [[b a]|] eqn:E.
  - right. split; [reflexivity|].
    split; [apply (cut_some _ _ _ _ E) | apply (cut_first _ _ _ _ E)].
  - left. repeat split.
Qed.

(* ================================================================== *)
(** * The more separator *)

Section MoreSeparator.

Lemma canon_exact a b : canon false a = canon false b -> a = b.
Proof. unfold canon. simpl. auto. Qed.

Ltac exact_chars :=
  repeat match goal with
  | H : canon false _ = canon false _ |- _ => apply canon_exact in H; subst
  end.

Lemma match_at_more_sound s rest c :
  match_at false re_more s = Some (rest, c) ->
  exists body, more_body body /\ s = "<" ++ body ++ ">" ++ rest /\
               capture 1 c = Some body.
Proof.
  intros H. destruct (match_at_sound _ _ _ _ _ H) as (w & -> & D). clear H.
  unfold re_more, Opt in D. cbn [Seqs Str] in D.
  inv_derives; exact_chars.
  - match goal with A : all_chars dot ?l = true |- _ =>
      exists ("!--more " ++ l ++ "--") end.
    split; [constructor; assumption|].
    split; [norm_append; reflexivity|].
    cbn [capture Nat.eqb]. norm_append. reflexivity.
  - exists "!--more--". split; [constructor|]. split; reflexivity.
Qed.

Lemma match_at_more_complete body rest :
  more_body body -> match_at false re_more ("<" ++ body ++ ">" ++ rest) <> None.
Proof.
  intros [|label A].
  - discriminate.
  - unfold match_at, re_more, Opt. cbn [Seqs Str append m canon andb Ascii.eqb Bool.eqb].
    rewrite append_assoc. cbn [append].
    match goal with |- match star_greedy dot ?k _ with _ => _ end <> None =>
      pose proof (star_greedy_complete dot k label ("-->" ++ rest) A) as C
    end.
    cbn [append] in C.
    destruct (star_greedy _ _ _); [discriminate|].
    exfalso. apply C; [discriminate | reflexivity].
Qed.

Lemma escape_more_cases (s : string) :
  (escape_more s = s /\
   forall p body q, more_body body -> s <> p ++ "<" ++ body ++ ">" ++ q) \/
  (exists pre body post,
      more_body body /\
      s = pre ++ "<" ++ body ++ ">" ++ post /\
      escape_more s = pre ++ "&lt;" ++ body ++ "&gt;" ++ post /\
      forall p b q body' post', pre = p ++ String b q -> more_body body' ->
        String b q ++ "<" ++ body ++ ">" ++ post <> "<" ++ body' ++ ">" ++ post').
Proof.
  unfold escape_more, replace_first.
  destruct (search false re_more s) as [f|] eqn:S.
  - right. destruct (search_some _ _ _ _ S) as (W & M & _ & L).
    destruct (match_at_more_sound _ _ _ M) as (body & B & E & C).
    exists (before f), body, (after f). split; [assumption|].
    split; [rewrite W, E; reflexivity|].
    split.
    + cbn [expand]. rewrite C. rewrite !append_assoc. reflexivity.
    + intros p b q body' post' Hp B' H.
      specialize (L p b q Hp). rewrite E in L. rewrite H in L.
      apply (match_at_more_complete body' post' B'), L.
  - left. split; [reflexivity|].
    intros p body q B H.
    apply (match_at_more_complete body q B).
    apply (search_none _ _ _ S p _ H).
Qed.

End MoreSeparator.

(* ================================================================== *)
(** * The image pattern *)

Section ImagePaths.

Lemma img_src_derives w c :
  derives true re_img_src w [] c ->
  exists o k f cl,
    w = o ++ k ++ f ++ cl /\ img_src_parts o k f cl /\
    c = [(3, cl); (2, f); (1, o)].
Proof.
  unfold re_img_src. cbn [Seqs]. intros D.
  inv_derives.
  repeat match goal with
  | H : derives _ _ _ _ _ |- _ =>
      let F := fresh "F" in
      destruct (derives_frame _ _ _ _ _ H eq_refl) as [-> F]; clear H
  end.
  do 4 eexists. split; [reflexivity|]. split; [|reflexivity].
  repeat split; try assumption; match goal with F : _ |- _ => apply F end.
Qed.

Lemma img_src_build o k f cl :
  img_src_parts o k f cl ->
  derives true re_img_src (o ++ k ++ f ++ cl) [] [(3, cl); (2, f); (1, o)].
Proof.
  intros (O & K & F & C). unfold re_img_src. cbn [Seqs].
  apply d_seq with (c1 := [(1, o)]); [apply d_group, O|].
  apply d_seq with (c1 := [(1, o)]); [apply d_star, K|].
  apply d_seq with (c1 := [(2, f); (1, o)]).
  - apply d_group. apply (derives_frame _ _ _ _ _ F eq_refl).
  - apply d_group. apply (derives_frame _ _ _ _ _ C eq_refl).
Qed.

Lemma canon_upper a : canon true a = upper a.
Proof. reflexivity. Qed.

Lemma upper_caseless a b : caseless a = true -> upper a = upper b -> b = a.
Proof.
  unfold caseless, upper. intros C.
  apply negb_true_iff, orb_false_iff in C. destruct C as [C1 C2].
  rewrite C2.
  destruct ((97 <=? nat_of_ascii b)%nat && (nat_of_ascii b <=? 122)%nat) eqn:L;
    [|congruence].
  intros ->. exfalso.
  apply andb_prop in L. destruct L as [L1 L2].
  apply Nat.leb_le in L1, L2.
  pose proof (nat_ascii_bounded b) as B.
  rewrite nat_ascii_embedding in C1 by lia.
  apply andb_false_iff in C1. destruct C1 as [C1|C1]; apply Nat.leb_gt in C1; lia.
Qed.

Ltac upper_chars :=
  repeat match goal with
  | H : canon true ?a = canon true ?b |- _ =>
      change (upper a = upper b) in H;
      first [ apply (upper_caseless a b eq_refl) in H; subst b
            | let v := eval vm_compute in (upper a) in
              change (upper a) with v in H; symmetry in H ]
  end.

Lemma img_file_shape f :
  matches true re_img_file f ->
  exists name ext,
    f = name ++ "." ++ ext /\ name <> "" /\
    all_chars not_slash_quote name = true /\
    In (toUpperCase ext) image_extensions.
Proof.
  unfold matches, re_img_file, re_image_ext, Plus, Opt. cbn [Seqs Str]. intros D.
  inv_derives; upper_chars.
  all: match goal with
       | P : not_slash_quote ?b = true, A : all_chars not_slash_quote ?w = true |- _ =>
           eexists (String b w), _; split;
             [norm_append; reflexivity
             | split; [discriminate | split; [simpl; rewrite P; exact A |]]]
       end.
  all: cbn [toUpperCase append];
       repeat match goal with H : upper _ = _ |- _ => rewrite H; clear H end;
       unfold image_extensions; simpl; tauto.
Qed.

Lemma img_open_shape o :
  matches true re_img_open o ->
  exists tag attrs src,
    o = tag ++ attrs ++ src /\ toUpperCase tag = "<IMG" /\
    all_chars (except ">") attrs = true /\ toUpperCase src = "SRC=" ++ DQ.
Proof.
  unfold matches, re_img_open. cbn [Seqs Str]. intros D.
  inv_derives; upper_chars.
  match goal with
  | A : all_chars (except ">") ?w = true |- _ =>
      eexists (String _ (String _ (String _ (String _ "")))), w,
              (String _ (String _ (String _ (String _ (String _ "")))));
        split; [norm_append; reflexivity | split; [| split; [exact A|]]]
  end.
  all: cbn [toUpperCase append];
       repeat match goal with H : upper _ = _ |- _ => rewrite H; clear H end;
       reflexivity.
Qed.

Lemma img_close_shape cl :
  matches true re_img_close cl ->
  exists attrs, cl = DQ ++ attrs ++ ">" /\ all_chars (except ">") attrs = true.
Proof.
  unfold matches, re_img_close. cbn [Seqs Str]. intros D.
  inv_derives; upper_chars.
  match goal with
  | A : all_chars (except ">") ?w = true |- _ => exists w; split; [|exact A]
  end.
  norm_append. reflexivity.
Qed.

Lemma rewrite_image_paths_cases (s : string) :
  (rewrite_image_paths (Config true) s = s /\
   forall p o k f cl q, img_src_parts o k f cl -> s <> p ++ (o ++ k ++ f ++ cl) ++ q) \/
  (exists pre o k f cl post,
      img_src_parts o k f cl /\
      s = pre ++ (o ++ k ++ f ++ cl) ++ post /\
      rewrite_image_paths (Config true) s =
      pre ++ (o ++ "images/" ++ f ++ cl) ++ rewrite_image_paths (Config true) post /\
      forall p b q o' k' f' cl' post',
        pre = p ++ String b q -> img_src_parts o' k' f' cl' ->
        String b q ++ (o ++ k ++ f ++ cl) ++ post <> (o' ++ k' ++ f' ++ cl') ++ post').
Proof.
  unfold rewrite_image_paths. cbn [saveScrapedImages]. rewrite replace_all_step.
  destruct (search true re_img_src s) as [m|] eqn:S.
  - right. destruct (search_some _ _ _ _ S) as (W & _ & D & L).
    destruct (img_src_derives _ _ D) as (o & k & f & cl & E & P & G).
    exists (before m), o, k, f, cl, (after m).
    split; [assumption|]. split; [rewrite <- E; assumption|].
    split.
    + rewrite G, E. cbn [expand capture Nat.eqb].
      destruct (img_open_shape _ (proj1 P)) as (tag & attrs & src & -> & T & _).
      destruct tag as [|t0 tag]; [discriminate|].
      cbn [append]. norm_append. reflexivity.
    + intros p b q o' k' f' cl' post' Hp P' H.
      apply (match_at_complete true re_img_src _ _ post' (img_src_build _ _ _ _ P')).
      rewrite <- H, <- E. apply (L p b q Hp).
  - left. split; [reflexivity|].
    intros p o k f cl q P H.
    apply (match_at_complete true re_img_src _ _ q (img_src_build _ _ _ _ P)).
    apply (search_none _ _ _ S p _ H).
Qed.

Lemma upper_letter b l : upper b = l -> caseless l = false -> caseless b = false.
Proof.
  intros E L. destruct (caseless b) eqn:C; [|reflexivity].
  assert (U : upper b = b).
  { unfold upper. unfold caseless in C.
    apply negb_true_iff, orb_false_iff in C. destruct C as [_ C]. rewrite C. reflexivity. }
  congruence.
Qed.

(** The extensions are made of letters. *)
Lemma extension_letters ext :
  In (toUpperCase ext) image_extensions -> all_chars is_letter ext = true.
Proof.
  unfold image_extensions. cbn [In].
  intros [H|[H|[H|[H|[H|[]]]]]];
    repeat (destruct ext as [|?b ext]; [discriminate H|]; cbn [toUpperCase] in H;
            injection H as ?U H);
    (destruct ext; [|discriminate H]);
    cbn [all_chars]; unfold is_letter;
    repeat match goal with
           | U : _ = upper ?b |- _ =>
               rewrite (upper_letter b _ (eq_sym U) eq_refl); clear U
           end; reflexivity.
Qed.

Lemma letter_except c b : caseless c = true -> is_letter b = true -> except c b = true.
Proof.
  unfold is_letter, except. intros C L.
  destruct (Ascii.eqb_spec c b) as [<-|]; [|reflexivity].
  rewrite C in L. discriminate.
Qed.

Lemma derives_str_ci lit : forall w c,
  toUpperCase w = toUpperCase lit -> derives true (Str lit) w c c.
Proof.
  induction lit as [|a lit IH]; intros [|b w] c H; simpl in H; try discriminate.
  - constructor.
  - injection H as Hb Hw. cbn [Str].
    change (String b w) with (String b "" ++ w).
    apply d_seq with (c1 := c); [constructor; symmetry; exact Hb | apply IH, Hw].
Qed.

Ltac by_letters :=
  cbn [toUpperCase];
  repeat match goal with U : _ = upper _ |- _ => rewrite <- U; clear U end;
  reflexivity.

Lemma img_file_build name ext :
  name <> "" -> all_chars not_slash_quote name = true ->
  In (toUpperCase ext) image_extensions ->
  matches true re_img_file (name ++ "." ++ ext).
Proof.
  intros N A E. destruct name as [|b name]; [contradiction|].
  simpl in A. apply andb_prop in A. destruct A as [Pb A].
  unfold matches, re_img_file, Plus. cbn [Seqs].
  change (String b name ++ "." ++ ext) with ((String b "" ++ name) ++ ("." ++ ext)).
  apply d_seq with (c1 := []).
  { apply d_seq with (c1 := []); constructor; assumption. }
  apply d_seq with (c1 := []); [constructor; reflexivity|].
  unfold image_extensions in E. cbn [In] in E. unfold re_image_ext, Opt.
  destruct E as [H|[H|[H|[H|[H|[]]]]]];
    repeat (destruct ext as [|?b ext]; [discriminate H|]; cbn [toUpperCase] in H;
            injection H as ?U H);
    (destruct ext; [|discriminate H]); clear H.
  - apply d_alt_l, derives_str_ci. by_letters.
  - apply d_alt_r, d_alt_l. cbn [Seqs].
    change (String b0 (String b1 (String b2 "")))
      with (String b0 (String b1 "") ++ ("" ++ String b2 "")).
    apply d_seq with (c1 := []); [apply derives_str_ci; by_letters|].
    apply d_seq with (c1 := []); [apply d_alt_r; constructor|].
    constructor. exact U1.
  - apply d_alt_r, d_alt_l. cbn [Seqs].
    change (String b0 (String b1 (String b2 (String b3 ""))))
      with (String b0 (String b1 "") ++ (String b2 "" ++ String b3 "")).
    apply d_seq with (c1 := []); [apply derives_str_ci; by_letters|].
    apply d_seq with (c1 := []); [apply d_alt_l; constructor; exact U1|].
    constructor. exact U2.
  - apply d_alt_r, d_alt_r, d_alt_l, derives_str_ci. by_letters.
  - apply d_alt_r, d_alt_r, d_alt_r, derives_str_ci. by_letters.
Qed.

Lemma img_close_build more :
  all_chars (except ">") more = true -> matches true re_img_close (DQ ++ more ++ ">").
Proof.
  intros A. unfold matches, re_img_close. cbn [Seqs].
  apply d_seq with (c1 := []); [constructor; reflexivity|].
  apply d_seq with (c1 := []); constructor; [assumption | reflexivity].
Qed.

Lemma not_slash_quote_quote b : not_slash_quote b = true -> except dq b = true.
Proof.
  unfold not_slash_quote, except. intros H.
  apply negb_true_iff, orb_false_iff in H. destruct H as [_ H].
  rewrite Ascii.eqb_sym, H. reflexivity.
Qed.

Lemma not_slash_quote_slash b : not_slash_quote b = true -> except "/" b = true.
Proof.
  unfold not_slash_quote, except. intros H.
  apply negb_true_iff, orb_false_iff in H. destruct H as [H _].
  rewrite Ascii.eqb_sym, H. reflexivity.
Qed.

(** A file name holds no quote and no slash. *)
Lemma file_name_chars c name ext :
  caseless c = true -> except c "." = true ->
  (forall b, not_slash_quote b = true -> except c b = true) ->
  all_chars not_slash_quote name = true ->
  In (toUpperCase ext) image_extensions ->
  all_chars (except c) (name ++ "." ++ ext) = true.
Proof.
  intros C D I A E. rewrite all_chars_append, (all_chars_weaken _ _ _ I A).
  cbn [append all_chars andb]. rewrite D. cbn [andb].
  apply (all_chars_weaken is_letter); [intros b; apply letter_except, C|].
  apply extension_letters, E.
Qed.

Lemma img_file_close_sound s c rest c' :
  m true (Seq (Group 2 re_img_file) (Group 3 re_img_close)) s c keep = Some (rest, c') ->
  exists name ext attrs,
    s = (name ++ "." ++ ext) ++ String dq (attrs ++ String ">" rest) /\
    c' = (3, DQ ++ attrs ++ ">") :: (2, name ++ "." ++ ext) :: c /\
    name <> "" /\ all_chars not_slash_quote name = true /\
    In (toUpperCase ext) image_extensions /\
    all_chars (except ">") attrs = true.
Proof.
  intros M. destruct (m_sound _ _ _ _ _ _ M) as (w & s' & c'' & -> & D & K).
  unfold keep in K. injection K as <- <-.
  inv_derives.
  repeat match goal with
  | H : derives _ _ _ _ _ |- _ =>
      let F := fresh "F" in
      destruct (derives_frame _ _ _ _ _ H eq_refl) as [-> F]; clear H
  end.
  match goal with
  | Ff : forall d, derives true re_img_file ?w d d |- _ =>
      destruct (img_file_shape w (Ff [])) as (name & ext & -> & N & A & E)
  end.
  match goal with
  | Fc : forall d, derives true re_img_close ?w d d |- _ =>
      destruct (img_close_shape w (Fc [])) as (attrs & -> & B)
  end.
  exists name, ext, attrs. repeat split; try assumption.
  norm_append. reflexivity.
Qed.

Lemma img_file_close_at name ext more post c :
  name <> "" -> all_chars not_slash_quote name = true ->
  In (toUpperCase ext) image_extensions ->
  all_chars (except ">") more = true ->
  m true (Seq (Group 2 re_img_file) (Group 3 re_img_close))
    ((name ++ "." ++ ext) ++ String dq (more ++ String ">" post)) c keep
  = Some (post, (3, DQ ++ more ++ ">") :: (2, name ++ "." ++ ext) :: c).
Proof.
  intros N A E B.
  destruct (m true _ _ c keep) as [[rest c']|] eqn:M.
  - destruct (img_file_close_sound _ _ _ _ M)
      as (name' & ext' & attrs & S & -> & N' & A' & E' & B').
    apply first_char_unique in S;
      [| apply file_name_chars; auto using not_slash_quote_quote
       | apply file_name_chars; auto using not_slash_quote_quote ].
    destruct S as [<- S].
    apply first_char_unique in S; [|assumption|assumption].
    destruct S as [<- <-]. reflexivity.
  - exfalso. revert M.
    replace ((name ++ "." ++ ext) ++ String dq (more ++ String ">" post))
      with (((name ++ "." ++ ext) ++ (DQ ++ more ++ ">")) ++ post)
      by (norm_append; reflexivity).
    apply m_complete with (c' := (3, DQ ++ more ++ ">") :: (2, name ++ "." ++ ext) :: c);
      [|discriminate].
    apply d_seq with (c1 := (2, name ++ "." ++ ext) :: c); apply d_group.
    + apply (derives_frame _ _ _ _ _ (img_file_build _ _ N A E) eq_refl).
    + apply (derives_frame _ _ _ _ _ (img_close_build _ B) eq_refl).
Qed.

(** An attempt at the file name fails where a slash comes before the
    closing quote. *)
Lemma img_file_close_no_slash v d rest c :
  all_chars (except dq) v = true -> all_chars (except dq) d = true ->
  m true (Seq (Group 2 re_img_file) (Group 3 re_img_close))
    ((v ++ "/" ++ d) ++ String dq rest) c keep = None.
Proof.
  intros V D.
  destruct (m true _ _ c keep) as [[rest' c']|] eqn:M; [exfalso | reflexivity].
  destruct (img_file_close_sound _ _ _ _ M)
    as (name' & ext' & attrs & S & _ & N' & A' & E' & B').
  apply first_char_unique in S.
  - destruct S as [S _].
    assert (F : all_chars (except "/") (name' ++ "." ++ ext') = true)
      by (apply file_name_chars; auto using not_slash_quote_slash).
    rewrite <- S in F. rewrite !all_chars_append in F.
    cbn [append all_chars] in F. cbn in F.
    rewrite andb_false_r in F. discriminate.
  - rewrite !all_chars_append, V. cbn [append all_chars andb]. rewrite D. reflexivity.
  - apply file_name_chars; auto using not_slash_quote_quote.
Qed.

(** The lazy skip stops where the file name starts: right after the
    last slash of the path. *)
Lemma img_skip_dir dir name ext more post c :
  all_chars dot dir = true -> all_chars (except dq) dir = true ->
  (dir = "" \/ exists dir0, dir = dir0 ++ "/") ->
  name <> "" -> all_chars not_slash_quote name = true ->
  In (toUpperCase ext) image_extensions ->
  all_chars (except ">") more = true ->
  star_lazy dot
    (fun s' => m true (Seq (Group 2 re_img_file) (Group 3 re_img_close)) s' c keep)
    (dir ++ (name ++ "." ++ ext) ++ String dq (more ++ String ">" post))
  = Some (post, (3, DQ ++ more ++ ">") :: (2, name ++ "." ++ ext) :: c).
Proof.
  intros Dd Dq Ds N A E B.
  rewrite star_lazy_skip; [| assumption |].
  - apply star_lazy_here, img_file_close_at; assumption.
  - intros u b v Hu. destruct Ds as [->|(dir0 & ->)]; [destruct u; discriminate|].
    destruct (suffix_of_snoc _ _ _ _ _ Hu) as (w & W). rewrite W.
    assert (Wq : all_chars (except dq) w = true).
    { rewrite Hu, W, !all_chars_append in Dq.
      apply andb_prop in Dq. destruct Dq as [_ Dq].
      apply andb_prop in Dq. apply Dq. }
    replace ((w ++ "/") ++ (name ++ "." ++ ext) ++ String dq (more ++ String ">" post))
      with ((w ++ "/" ++ (name ++ "." ++ ext)) ++ String dq (more ++ String ">" post))
      by (norm_append; reflexivity).
    apply img_file_close_no_slash; [assumption|].
    apply file_name_chars; auto using not_slash_quote_quote.
Qed.

Lemma src_sound v c k r :
  m true (Seq (Str "src=") (Chr dq)) v c k = Some r ->
  exists b1 b2 b3 v',
    v = String b1 (String b2 (String b3 (String "=" (String dq v')))) /\
    upper b1 = "S"%char /\ upper b2 = "R"%char /\ upper b3 = "C"%char.
Proof.
  intros M. destruct (m_sound _ _ _ _ _ _ M) as (w & s' & c' & -> & D & _).
  cbn [Str] in D. inv_derives. upper_chars.
  do 4 eexists. split; [cbn [append]; reflexivity | auto].
Qed.

Lemma img_open_at attrs X0 post k r :
  all_chars (except ">") attrs = true ->
  all_chars (except ">") X0 = true ->
  includes (toUpperCase SRC) (toUpperCase (drop 1 SRC ++ X0)) = false ->
  k (X0 ++ String ">" post) [(1, "<img" ++ attrs ++ SRC)] = Some r ->
  m true (Group 1 re_img_open) ("<img" ++ attrs ++ SRC ++ X0 ++ String ">" post) [] k
  = Some r.
Proof.
  intros A B L K.
  set (s := "<img" ++ attrs ++ SRC ++ X0 ++ String ">" post).
  set (k1 := fun s1 (c1 : caps) => k s1 ((1, consumed s s1) :: c1)).
  change (star_greedy (except ">")
            (fun s' => m true (Seq (Str "src=") (Chr dq)) s' [] k1)
            (attrs ++ SRC ++ X0 ++ String ">" post) = Some r).
  apply star_greedy_skip; [assumption|].
  rewrite star_greedy_only_here.
  - change (k1 (X0 ++ String ">" post) [] = Some r). unfold k1, s.
    replace ("<img" ++ attrs ++ SRC ++ X0 ++ String ">" post)
      with (("<img" ++ attrs ++ SRC) ++ X0 ++ String ">" post)
      by (norm_append; reflexivity).
    rewrite consumed_append. exact K.
  - intros u v E U Au.
    destruct (m true (Seq (Str "src=") (Chr dq)) v [] k1) as [r'|] eqn:M;
      [exfalso | reflexivity].
    destruct (src_sound _ _ _ _ M) as (b1 & b2 & b3 & v' & -> & U1 & U2 & U3).
    rewrite <- append_assoc in E. symmetry in E.
    assert (BB : all_chars (except ">") (SRC ++ X0) = true)
      by (cbn [SRC DQ append all_chars]; rewrite B; reflexivity).
    destruct (before_first_char ">" u _ (SRC ++ X0) post Au BB E) as (w & W & V).
    apply peel_char in V; [|intros ->; discriminate U1].
    destruct V as (w1 & -> & V).
    apply peel_char in V; [|intros ->; discriminate U2].
    destruct V as (w2 & -> & V).
    apply peel_char in V; [|intros ->; discriminate U3].
    destruct V as (w3 & -> & V).
    apply peel_char in V; [|discriminate].
    destruct V as (w4 & -> & V).
    apply peel_char in V; [|discriminate].
    destruct V as (w' & -> & V).
    destruct u as [|u0 u]; [contradiction|].
    cbn [SRC DQ append] in W. injection W as _ W.
    apply (f_equal toUpperCase) in W.
    rewrite toUpperCase_append in W. cbn [toUpperCase] in W.
    rewrite U1, U2, U3 in W.
    change (String (upper "r") (String (upper "c") (String (upper "=")
              (String (upper (ascii_of_nat 34)) (toUpperCase X0)))))
      with (toUpperCase (drop 1 SRC ++ X0)) in W.
    rewrite W in L.
    change (String "S" (String "R" (String "C" (String (upper "=")
              (String (upper dq) (toUpperCase w'))))))
      with (toUpperCase SRC ++ toUpperCase w') in L.
    rewrite includes_occurrence in L. discriminate.
Qed.

Lemma includes_after_src Y :
  includes (toUpperCase SRC) Y = false ->
  includes (toUpperCase SRC) (toUpperCase (drop 1 SRC) ++ Y) = false.
Proof.
  unfold includes. destruct (cut (toUpperCase SRC) Y) as [[? ?]|] eqn:C; [discriminate|].
  intros _.
  assert (P : forall b t, b <> "S"%char -> prefix (toUpperCase SRC) (String b t) = false).
  { intros b t N. cbn [SRC DQ append toUpperCase prefix].
    destruct (ascii_dec (upper "s") b) as [E|]; [|reflexivity].
    exfalso. apply N. rewrite <- E. reflexivity. }
  cbn [SRC DQ append drop toUpperCase] in *.
  cbn [cut]. rewrite !P by discriminate. rewrite C. reflexivity.
Qed.

Lemma not_lt_canon b : b <> "<"%char -> Ascii.eqb (canon true "<") (canon true b) = false.
Proof.
  intros N. apply Ascii.eqb_neq. intros E. apply N.
  apply (upper_caseless "<" b eq_refl E).
Qed.

Lemma plain_img_match attrs dir name ext more post :
  plain_img attrs dir name ext more ->
  match_at true re_img_src
    ("<img" ++ attrs ++ SRC ++ dir ++ name ++ "." ++ ext ++ DQ ++ more ++ ">" ++ post)
  = Some (post, [(3, DQ ++ more ++ ">"); (2, name ++ "." ++ ext);
                 (1, "<img" ++ attrs ++ SRC)]).
Proof.
  intros [A D De [N Nm] E M L].
  unfold path_char in D. rewrite !all_chars_and in D.
  apply andb_prop in D. destruct D as [D Dg]. apply andb_prop in D. destruct D as [Dd Dq].
  unfold name_char in Nm. rewrite all_chars_and in Nm.
  apply andb_prop in Nm. destruct Nm as [Nq Ng].
  assert (Eg : all_chars (except ">") ext = true).
  { apply (all_chars_weaken is_letter); [intros b; apply letter_except; reflexivity|].
    apply extension_letters, E. }
  set (X0 := dir ++ name ++ "." ++ ext ++ DQ ++ more).
  replace ("<img" ++ attrs ++ SRC ++ dir ++ name ++ "." ++ ext ++ DQ ++ more ++ ">" ++ post)
    with ("<img" ++ attrs ++ SRC ++ X0 ++ String ">" post)
    by (unfold X0; norm_append; reflexivity).
  unfold match_at.
  change (m true (Group 1 re_img_open) ("<img" ++ attrs ++ SRC ++ X0 ++ String ">" post) []
            (fun s1 c1 => m true re_img_tail s1 c1 keep)
          = Some (post, [(3, DQ ++ more ++ ">"); (2, name ++ "." ++ ext);
                         (1, "<img" ++ attrs ++ SRC)])).
  apply img_open_at.
  - assumption.
  - unfold X0. rewrite !all_chars_append, Dg, Ng, Eg, M. reflexivity.
  - rewrite toUpperCase_append. apply includes_after_src, L.
  - unfold re_img_tail. cbn [m].
    change (star_lazy dot
              (fun s' => m true (Seq (Group 2 re_img_file) (Group 3 re_img_close)) s'
                           [(1, "<img" ++ attrs ++ SRC)] keep)
              (X0 ++ String ">" post)
            = Some (post, [(3, DQ ++ more ++ ">"); (2, name ++ "." ++ ext);
                           (1, "<img" ++ attrs ++ SRC)])).
    replace (X0 ++ String ">" post)
      with (dir ++ (name ++ "." ++ ext) ++ String dq (more ++ String ">" post))
      by (unfold X0; norm_append; reflexivity).
    apply img_skip_dir; assumption.
Qed.

Lemma img_src_needs_img s r :
  match_at true re_img_src s = Some r ->
  exists b1 b2 b3 rest,
    s = String "<" (String b1 (String b2 (String b3 rest))) /\
    upper b1 = "I"%char /\ upper b2 = "M"%char /\ upper b3 = "G"%char.
Proof.
  destruct r as [rest c]. intros M.
  destruct (match_at_sound _ _ _ _ _ M) as (w & -> & D).
  destruct (img_src_derives _ _ D) as (o & k & f & cl & -> & (O & _) & _).
  unfold matches, re_img_open in O. cbn [Seqs Str] in O.
  inv_derives. upper_chars.
  do 4 eexists. split; [cbn [append]; reflexivity | auto].
Qed.

(** No attempt succeeds before the first [<img] of the content. *)
Lemma no_img_before pre tail :
  includes "<IMG" (toUpperCase pre) = false ->
  forall p b q, pre = p ++ String b q ->
                match_at true re_img_src (String b q ++ String "<" tail) = None.
Proof.
  intros I p b q Hp.
  destruct (match_at true re_img_src _) as [r|] eqn:M; [exfalso | reflexivity].
  destruct (img_src_needs_img _ _ M) as (b1 & b2 & b3 & rest & E & U1 & U2 & U3).
  cbn [append] in E. injection E as -> E.
  destruct q as [|x q]; cbn [append] in E; injection E as <- E; [discriminate U1|].
  destruct q as [|y q]; cbn [append] in E; injection E as <- E; [discriminate U2|].
  destruct q as [|z q]; cbn [append] in E; injection E as <- E; [discriminate U3|].
  rewrite Hp, toUpperCase_append in I. cbn [toUpperCase] in I.
  rewrite U1, U2, U3 in I.
  change (String (upper "<") (String "I" (String "M" (String "G" (toUpperCase q)))))
    with ("<IMG" ++ toUpperCase q) in I.
  rewrite includes_occurrence in I. discriminate.
Qed.

Theorem rewrite_plain_img pre attrs dir name ext more post :
  includes "<IMG" (toUpperCase pre) = false ->
  plain_img attrs dir name ext more ->
  rewrite_image_paths (Config true)
    (pre ++ "<img" ++ attrs ++ SRC ++ dir ++ name ++ "." ++ ext ++ DQ ++ more ++ ">" ++ post)
  = pre ++ "<img" ++ attrs ++ SRC ++ "images/" ++ name ++ "." ++ ext ++ DQ ++ more ++ ">" ++
    rewrite_image_paths (Config true) post.
Proof.
  intros P I. unfold rewrite_image_paths. cbn [saveScrapedImages].
  rewrite replace_all_step.
  set (tag := "<img" ++ attrs ++ SRC ++ dir ++ name ++ "." ++ ext ++ DQ ++ more ++ ">").
  assert (L : forall p b q, pre = p ++ String b q ->
                            match_at true re_img_src (String b q ++ tag ++ post) = None).
  { intros p b q Hp. apply (no_img_before pre _ P p b q Hp). }
  pose proof (plain_img_match attrs dir name ext more post I) as M.
  replace ("<img" ++ attrs ++ SRC ++ dir ++ name ++ "." ++ ext ++ DQ ++ more ++ ">" ++ post)
    with (tag ++ post) in * by (unfold tag; norm_append; reflexivity).
  rewrite (search_at true re_img_src pre _ _ _ L M).
  cbn [before matched groups after expand capture Nat.eqb].
  rewrite consumed_append. unfold tag at 1. cbn [append].
  norm_append. reflexivity.
Qed.

Lemma plain_img_sample :
  plain_img (" class=" ++ DQ ++ "wide" ++ DQ ++ " ")
    "https://example.com/wp-content/uploads/2020/01/" "photo" "jpeg"
    (" alt=" ++ DQ ++ "a" ++ DQ).
Proof.
  split; try reflexivity.
  - right. exists "https://example.com/wp-content/uploads/2020/01". reflexivity.
  - split; [discriminate | reflexivity].
  - vm_compute. tauto.
Qed.

End ImagePaths.

(* ================================================================== *)
(** * The list-marker rewrite *)

Section ListMarker.

Lemma digit_dash : digit "-" = false. Proof. reflexivity. Qed.
Lemma digit_dot : digit "." = false. Proof. reflexivity. Qed.

(** [marker] is what the group of the pattern matches. *)
Lemma marker_pattern (mk : string) : marker mk <-> matches false re_marker mk.
Proof.
  unfold matches, re_marker, Plus. split.
  - intros [|b ds Db Dds].
    + apply d_alt_l. constructor. reflexivity.
    + apply d_alt_r.
      change (String b ds ++ ".") with ((String b "" ++ ds) ++ ".").
      apply d_seq with (c1 := []).
      * apply d_seq with (c1 := []); constructor; assumption.
      * constructor. reflexivity.
  - intros D. inv_derives;
      repeat match goal with
      | H : canon false _ = canon false _ |- _ => cbv [canon] in H; cbn in H; subst
      end.
    + constructor.
    + cbn [append]. constructor; assumption.
Qed.

Lemma match_at_marker (s : string) :
  match_at false re_list_marker s =
  match marker_at s with
  | Some (mk, rest) => Some (rest, [(1, mk)])
  | None => None
  end.
Proof.
  unfold match_at, re_list_marker, re_marker, Plus. cbn [m].
  destruct s as [|b t]; [reflexivity|].
  unfold canon. cbn [andb]. unfold marker_at. fold space.
  destruct (Ascii.eqb_spec "-"%char b) as [<-|N].
  - destruct t as [|c t']; [reflexivity|].
    destruct (space c) eqn:S.
    + rewrite star_greedy_total by discriminate.
      change (String "-" (String c t')) with ("-" ++ String c t').
      rewrite consumed_append. reflexivity.
    + reflexivity.
  - destruct (digit b) eqn:Db; [|reflexivity].
    rewrite star_greedy_commit.
    2:{ intros d u Dd. destruct (Ascii.eqb_spec "."%char d) as [<-|]; [discriminate | reflexivity]. }
    destruct (skip digit t) as [|d r] eqn:K; [reflexivity|].
    destruct (Ascii.eqb_spec "."%char d) as [<-|]; [|destruct r; reflexivity].
    destruct r as [|c t']; [reflexivity|]. cbn [andb].
    destruct (space c) eqn:S; [|reflexivity].
    rewrite star_greedy_total by discriminate.
    rewrite (run_skip digit t) at 1. rewrite K.
    replace (String b (run digit t ++ String "." (String c t')))
      with ((String b (run digit t) ++ ".") ++ String c t')
      by (simpl; rewrite append_assoc; reflexivity).
    rewrite consumed_append. reflexivity.
Qed.

Lemma no_lead_skip s : no_lead (skip space s).
Proof. apply skip_skip. Qed.

Lemma no_lead_cons b t : space b = false -> no_lead (String b t).
Proof. intros H. apply skip_stop, H. Qed.

Lemma no_lead_space b t : space b = true -> ~ no_lead (String b t).
Proof.
  unfold no_lead. intros H E. 
  assert (F := skip_head _ _ _ _ E). congruence.
Qed.

Lemma marker_head mk : marker mk -> exists b t, mk = String b t /\ space b = false /\ (b = "-"%char \/ digit b = true).
Proof.
  intros [|b ds Db Dds].
  - exists "-"%char, "". auto.
  - exists b, (ds ++ "."). repeat split; auto.
    destruct (space b) eqn:S; [|reflexivity].
    unfold space, just in S. apply Ascii.eqb_eq in S. subst b. discriminate.
Qed.

(** What a match at a position consists of. *)
Lemma marker_at_some s mk rest :
  marker_at s = Some (mk, rest) ->
  marker mk /\ no_lead rest /\
  exists gap, all_chars space gap = true /\ s = mk ++ String " " gap ++ rest.
Proof.
  destruct s as [|b t]; [discriminate|]. unfold marker_at.
  destruct (Ascii.eqb_spec "-"%char b) as [<-|N].
  - destruct t as [|c t']; [discriminate|].
    destruct (space c) eqn:S; [|discriminate].
    intros H; injection H as <- <-.
    split; [constructor | split; [apply no_lead_skip|]].
    exists (run space t'). split; [apply all_chars_run|].
    unfold space, just in S. apply Ascii.eqb_eq in S. subst c.
    simpl. rewrite <- run_skip. reflexivity.
  - destruct (digit b) eqn:Db; [|discriminate].
    destruct (skip digit t) as [|d [|c t']] eqn:K; try discriminate.
    destruct (Ascii.eqb_spec "."%char d) as [<-|]; [|discriminate].
    cbn [andb]. destruct (space c) eqn:S; [|discriminate].
    intros H; injection H as <- <-.
    split; [constructor; [assumption | apply all_chars_run]|].
    split; [apply no_lead_skip|].
    exists (run space t'). split; [apply all_chars_run|].
    unfold space, just in S. apply Ascii.eqb_eq in S. subst c.
    rewrite (run_skip digit t) at 1. rewrite K.
    simpl. rewrite !append_assoc. simpl. rewrite <- run_skip. reflexivity.
Qed.

(** A marker followed by a space is a match. *)
Lemma marker_at_build mk X :
  marker mk -> marker_at (mk ++ String " " X) = Some (mk, skip space X).
Proof.
  intros [|b ds Db Dds].
  - reflexivity.
  - cbn [append marker_at].
    destruct (Ascii.eqb_spec "-"%char b) as [<-|N]; [discriminate|].
    rewrite Db, append_assoc, skip_append by assumption.
    cbn [append]. rewrite skip_stop by reflexivity.
    cbn. rewrite run_append by assumption. simpl.
    rewrite append_nil_r. reflexivity.
Qed.

(** Whether an attempt before a match fails does not depend on what
    follows the first space of that match. *)
Lemma marker_at_before mk b q X Y :
  marker mk ->
  marker_at (String b q ++ mk ++ String " " X) = None ->
  marker_at (String b q ++ mk ++ String " " Y) = None.
Proof.
  intros M. destruct (marker_head _ M) as (m0 & t0 & E0 & S0 & _).
  cbn [append marker_at].
  destruct (Ascii.eqb_spec "-"%char b) as [<-|N].
  - destruct q as [|c q']; cbn [append].
    + rewrite E0. cbn [append]. rewrite S0. reflexivity.
    + destruct (space c); [discriminate | reflexivity].
  - destruct (digit b); [|reflexivity].
    destruct (skip digit q) as [|d r] eqn:K.
    + pose proof (skip_nil_all _ _ K) as A.
      rewrite (skip_append digit q _ A), (skip_append digit q _ A).
      destruct M as [|b' ds Db Dds].
      * intros _. reflexivity.
      * rewrite (append_assoc _ _ (String " " X)).
        rewrite (skip_append digit (String b' ds)) by (simpl; rewrite Db; assumption).
        cbn [append]. rewrite skip_stop by reflexivity. discriminate.
    + rewrite (skip_append_stop _ _ _ _ (mk ++ String " " X) K).
      rewrite (skip_append_stop _ _ _ _ (mk ++ String " " Y) K).
      destruct r as [|c r']; cbn [append].
      * rewrite E0. cbn [append]. rewrite S0, andb_false_r. reflexivity.
      * destruct (Ascii.eqb "." d && space c); [discriminate | reflexivity].
Qed.

Lemma postprocess_round (s : string) :
  (postprocess s = s /\ forall p q, s = p ++ q -> marker_at q = None) \/
  (exists pre mk gap post,
      marker mk /\ all_chars space gap = true /\ no_lead post /\
      s = pre ++ mk ++ String " " gap ++ post /\
      postprocess s = pre ++ mk ++ String " " (postprocess post) /\
      forall p b q Y, pre = p ++ String b q ->
                      marker_at (String b q ++ mk ++ String " " Y) = None).
Proof.
  unfold postprocess. rewrite replace_all_step.
  destruct (search false re_list_marker s) as [f|] eqn:S.
  - right. destruct (search_some _ _ _ _ S) as (W & M & _ & L).
    rewrite match_at_marker in M.
    destruct (marker_at (matched f ++ after f)) as [[mk rest]|] eqn:A; [|discriminate].
    injection M as -> G.
    destruct (marker_at_some _ _ _ A) as (Mk & NL & gap & Gap & E).
    rewrite <- append_assoc in E.
    assert (Em : matched f = mk ++ String " " gap).
    { apply (append_inv_tail _ _ (after f)). rewrite E. rewrite !append_assoc. reflexivity. }
    exists (before f), mk, gap, (after f).
    split; [assumption|]. split; [assumption|]. split; [assumption|].
    split; [rewrite W, Em, !append_assoc; reflexivity|].
    split.
    + rewrite <- G. cbn [expand capture Nat.eqb].
      destruct (marker_head _ Mk) as (m0 & t0 & E0 & _).
      rewrite Em, E0. cbn [append]. rewrite append_assoc. reflexivity.
    + intros p b q Y Hp. apply (marker_at_before mk b q (gap ++ after f) Y Mk).
      specialize (L p b q Hp). rewrite match_at_marker, Em in L.
      rewrite !append_assoc in L. cbn [append] in L |- *.
      destruct (marker_at (String b (q ++ mk ++ String " " (gap ++ after f)))) as [[? ?]|];
        [discriminate | reflexivity].
  - left. split; [reflexivity|].
    intros p q H. pose proof (search_none _ _ _ S p q H) as N.
    rewrite match_at_marker in N.
    destruct (marker_at q) as [[? ?]|]; [discriminate | reflexivity].
Qed.

Lemma postprocess_no_lead s : no_lead s -> no_lead (postprocess s).
Proof.
  intros N. destruct (postprocess_round s) as [[-> _]|(pre & mk & gap & post & M & _ & _ & E & -> & _)];
    [assumption|].
  destruct pre as [|b pre].
  - destruct (marker_head _ M) as (m0 & t0 & -> & S0 & _). apply no_lead_cons, S0.
  - rewrite E in N. cbn [append] in N |- *.
    destruct (space b) eqn:S; [|apply no_lead_cons, S].
    exfalso. apply (no_lead_space _ _ S N).
Qed.

(** Replacement when the leftmost match is known. *)
Lemma postprocess_at pre mk Z :
  marker mk ->
  (forall p b q, pre = p ++ String b q ->
                 marker_at (String b q ++ mk ++ String " " Z) = None) ->
  postprocess (pre ++ mk ++ String " " Z) =
  pre ++ mk ++ String " " (postprocess (skip space Z)).
Proof.
  intros M L. unfold postprocess. rewrite replace_all_step.
  rewrite (search_at false re_list_marker pre (mk ++ String " " Z) (skip space Z) [(1, mk)]).
  - cbn [before groups matched after expand capture Nat.eqb].
    assert (C : consumed (mk ++ String " " Z) (skip space Z) = mk ++ String " " (run space Z)).
    { rewrite (run_skip space Z) at 1.
      replace (mk ++ String " " (run space Z ++ skip space Z))
        with ((mk ++ String " " (run space Z)) ++ skip space Z)
        by (rewrite append_assoc; reflexivity).
      apply consumed_append. }
    rewrite C. destruct (marker_head _ M) as (m0 & t0 & -> & _).
    cbn [append]. rewrite append_assoc. reflexivity.
  - intros p b q H. rewrite match_at_marker, (L p b q H). reflexivity.
  - rewrite match_at_marker, marker_at_build by assumption. reflexivity.
Qed.

Lemma postprocess_idempotent_below (n : nat) :
  forall s, String.length s < n -> postprocess (postprocess s) = postprocess s.
Proof.
  induction n as [|n IH]; intros s Ln; [lia|].
  destruct (postprocess_round s)
    as [[E _]|(pre & mk & gap & post & M & _ & NLp & E & P & L)].
  - rewrite E. assumption.
  - rewrite P. rewrite (postprocess_at pre mk (postprocess post) M).
    + rewrite (postprocess_no_lead _ NLp). rewrite IH; [reflexivity|].
      rewrite E in Ln. repeat (rewrite length_append in Ln; simpl in Ln). lia.
    + intros p b q H. apply (L p b q _ H).
Qed.

Lemma inside_marker ds : forall u v X mk rest,
  all_chars digit ds = true -> no_lead X ->
  ds ++ ". " = u ++ v -> v <> "" ->
  marker_at (v ++ X) = Some (mk, rest) -> v ++ X = mk ++ String " " rest.
Proof.
  induction ds as [|e ds IH]; intros u v X mk rest D NLX E NV A.
  - destruct u as [|x u]; simpl in E.
    + subst v. discriminate.
    + injection E as <- E. destruct u as [|y u]; simpl in E.
      * subst v. discriminate.
      * injection E as <- E. destruct u; [|discriminate]. simpl in E. congruence.
  - simpl in D. apply andb_prop in D. destruct D as [De Dds].
    destruct u as [|x u]; simpl in E.
    + subst v. 
      replace (String e (ds ++ ". ") ++ X) with ((String e ds ++ ".") ++ String " " X) in A |- *
        by (simpl; rewrite !append_assoc; reflexivity).
      rewrite marker_at_build in A by (constructor; assumption).
      rewrite NLX in A. injection A as <- <-. reflexivity.
    + injection E as <- E. apply (IH u v X mk rest Dds NLX E NV A).
Qed.

Lemma postprocess_exact_below (n : nat) :
  forall s, String.length s < n ->
  forall p q mk rest,
    postprocess s = p ++ q -> marker_at q = Some (mk, rest) ->
    q = mk ++ String " " rest.
Proof.
  induction n as [|n IH]; intros s Ln p q mk rest Hq A; [lia|].
  destruct (postprocess_round s)
    as [[E N]|(pre & mk0 & gap & post & M & _ & NLp & E & P & L)].
  - rewrite E in Hq. rewrite (N p q Hq) in A. discriminate.
  - assert (Lp : String.length post < n).
    { rewrite E in Ln. repeat (rewrite length_append in Ln; simpl in Ln). lia. }
    pose proof (postprocess_no_lead _ NLp) as NLP.
    assert (At0 : marker_at (mk0 ++ String " " (postprocess post)) = Some (mk, rest) ->
                  mk0 ++ String " " (postprocess post) = mk ++ String " " rest).
    { rewrite marker_at_build by assumption. rewrite NLP.
      intros H; injection H as <- <-. reflexivity. }
    rewrite P in Hq. destruct (append_eq_append _ _ _ _ Hq) as [(u & -> & Hu)|(u & -> & ->)].
    + replace (mk0 ++ String " " (postprocess post))
        with ((mk0 ++ " ") ++ postprocess post) in Hu
        by (rewrite append_assoc; reflexivity).
      destruct (append_eq_append _ _ _ _ Hu) as [(u' & -> & Hu')|(v & Hv & ->)].
      * apply (IH post Lp u' q mk rest Hu' A).
      * destruct v as [|x v].
        { apply (IH post Lp "" _ mk rest eq_refl A). }
        destruct u as [|y u].
        { simpl in Hv. rewrite <- Hv in A |- *. rewrite append_assoc in A |- *.
          apply At0, A. }
        destruct M as [|b ds Db Dds].
        { simpl in Hv. injection Hv as <- Hv.
          destruct u; simpl in Hv; [|destruct u; discriminate].
          injection Hv as <- <-. discriminate. }
        { simpl in Hv. rewrite append_assoc in Hv. injection Hv as <- Hv.
          apply (inside_marker ds u (String x v) _ mk rest Dds NLP Hv); [discriminate | exact A]. }
    + destruct u as [|b u].
      * apply At0, A.
      * rewrite (L p b u _ eq_refl) in A. discriminate.
Qed.

Lemma postprocess_idempotent_any (s : string) :
  postprocess (postprocess s) = postprocess s.
Proof. apply (postprocess_idempotent_below (S (String.length s))). lia. Qed.

(** No marker is followed by two spaces in the output. *)
Lemma postprocess_no_wide_marker (s p mk X : string) :
  marker mk -> postprocess s <> p ++ mk ++ String " " (String " " X).
Proof.
  intros M H.
  assert (A : marker_at (mk ++ String " " (String " " X)) = Some (mk, skip space X)).
  { rewrite marker_at_build by assumption. reflexivity. }
  pose proof (postprocess_exact_below (S (String.length s)) s (Nat.lt_succ_diag_r _)
                p _ mk _ H A) as E.
  apply append_inv_head in E. injection E as E.
  symmetry in E. apply skip_head in E. discriminate.
Qed.

End ListMarker.

(* ================================================================== *)
(** * Occurrences of a text in a string *)

Section OccurrenceFacts.

Lemma includes_iff pat s : includes pat s = true <-> exists a b, s = a ++ pat ++ b.
Proof.
  split.
  - intros H. destruct (includes_cut _ _ H) as (b & a & C).
    exists b, a. apply (cut_some _ _ _ _ C).
  - intros (a & b & ->). apply includes_occurrence.
Qed.

Lemma not_includes pat s a b : includes pat s = false -> s <> a ++ pat ++ b.
Proof. intros H ->. rewrite includes_occurrence in H. discriminate. Qed.

Lemma includes_part pat a b c : includes pat b = true -> includes pat (a ++ b ++ c) = true.
Proof.
  intros H. apply includes_iff in H. destruct H as (u & v & ->).
  apply includes_iff. exists (a ++ u), (v ++ c). rewrite !append_assoc. reflexivity.
Qed.

Lemma excludes_prefix pat a b : includes pat (a ++ b) = false -> includes pat a = false.
Proof.
  intros H. destruct (includes pat a) eqn:I; [|reflexivity].
  pose proof (includes_part pat "" a b I) as P. cbn [append] in P. congruence.
Qed.

Lemma excludes_suffix pat a b : includes pat (a ++ b) = false -> includes pat b = false.
Proof.
  intros H. destruct (includes pat b) eqn:I; [|reflexivity].
  pose proof (includes_part pat a b "" I) as P. rewrite append_nil_r in P. congruence.
Qed.

(** [cut] is determined by the first occurrence. *)
Lemma cut_at (pat : string) : forall b a,
  (forall p c q, b = p ++ String c q -> prefix pat (String c q ++ pat ++ a) = false) ->
  cut pat (b ++ pat ++ a) = Some (b, a).
Proof.
  induction b as [|x b IH]; intros a F.
  - cbn [append]. destruct (pat ++ a) eqn:E; cbn [cut]; rewrite <- E;
      rewrite prefix_append, drop_append; reflexivity.
  - pose proof (F "" x b eq_refl) as P. cbn [append] in P.
    cbn [append cut]. rewrite P.
    rewrite IH; [reflexivity|].
    intros p c q E. apply (F (String x p) c q). rewrite E. reflexivity.
Qed.

(** The text before the first occurrence holds no occurrence. *)
Lemma upto_excludes (x : ascii) (sep s : string) :
  includes (String x sep) (upto (String x sep) s) = false.
Proof.
  unfold upto. destruct (cut (String x sep) s) as [[b a]|] eqn:C.
  - destruct (includes (String x sep) b) eqn:I; [exfalso | reflexivity].
    apply includes_iff in I. destruct I as (u & v & ->).
    pose proof (cut_first _ _ _ _ C u x (sep ++ v) eq_refl) as P.
    change (String x (sep ++ v)) with (String x sep ++ v) in P.
    rewrite append_assoc, prefix_append in P. discriminate.
  - unfold includes. rewrite C. reflexivity.
Qed.

Lemma upto_prefix sep s : exists r, s = upto sep s ++ r.
Proof.
  unfold upto. destruct (cut sep s) as [[b a]|] eqn:C.
  - exists (sep ++ a). apply (cut_some _ _ _ _ C).
  - exists "". rewrite append_nil_r. reflexivity.
Qed.

Lemma after_first_suffix sep s : exists l, s = l ++ after_first sep s.
Proof.
  unfold after_first. destruct (cut sep s) as [[b a]|] eqn:C.
  - exists (b ++ sep). rewrite append_assoc. apply (cut_some _ _ _ _ C).
  - exists s. rewrite append_nil_r. reflexivity.
Qed.

Lemma upto_none sep s : includes sep s = false -> upto sep s = s.
Proof.
  unfold includes, upto. destruct (cut sep s) as [[? ?]|]; [discriminate | reflexivity].
Qed.

(** A marker that does not overlap itself is found right after a text
    that does not hold it. *)
Lemma first_occurrence (m0 : ascii) (mt base X : string) :
  (forall u v, String m0 mt = u ++ String m0 v -> u = "") ->
  includes (String m0 mt) base = false ->
  cut (String m0 mt) (base ++ String m0 mt ++ X) = Some (base, X).
Proof.
  intros NB I. apply cut_at. intros p c q Hp.
  destruct (prefix (String m0 mt) (String c q ++ String m0 mt ++ X)) eqn:P;
    [exfalso | reflexivity].
  apply prefix_split in P.
  destruct (append_eq_append _ _ _ _ P) as [(u & Hu & Hx)|(u & Hu & _)].
  - destruct u as [|y u].
    + rewrite append_nil_r in Hu.
      apply (not_includes _ _ p "" I). rewrite Hp, <- Hu, append_nil_r. reflexivity.
    + cbn [append] in Hx. injection Hx as <- _.
      pose proof (NB _ _ Hu). discriminate.
  - apply (not_includes _ _ p u I). rewrite Hp, Hu. reflexivity.
Qed.

Lemma upto_past_delimiter (m0 : ascii) (mt : string) (d : ascii) (id t : string) :
  all_chars (except d) (String m0 mt) = true ->
  includes (String m0 mt) id = false ->
  exists r, upto (String m0 mt) (id ++ String d t) = id ++ String d r.
Proof.
  intros A I. unfold upto.
  destruct (cut (String m0 mt) (id ++ String d t)) as [[b a]|] eqn:C; [|exists t; reflexivity].
  apply cut_some in C.
  destruct (append_eq_append _ _ _ _ C) as [(u & Hb & Hu)|(u & Hid & Hu)].
  - destruct u as [|y u].
    + exfalso. cbn [append] in Hu. injection Hu as <- _.
      simpl in A. unfold except at 1 in A. rewrite Ascii.eqb_refl in A. discriminate.
    + cbn [append] in Hu. injection Hu as <- _. exists u. exact Hb.
  - exfalso. destruct (append_eq_append _ _ _ _ Hu) as [(v & Hv & _)|(v & Hv & Hd)].
    + apply (not_includes _ _ b v I). rewrite Hid, Hv. reflexivity.
    + destruct v as [|y v].
      * rewrite append_nil_r in Hv.
        apply (not_includes _ _ b "" I). rewrite Hid, <- Hv, append_nil_r. reflexivity.
      * cbn [append] in Hd. injection Hd as <- _.
        rewrite Hv in A. apply all_chars_suffix in A.
        unfold except in A. rewrite Ascii.eqb_refl in A. discriminate.
Qed.

Lemma upto_delimiter (d : ascii) (id r : string) :
  includes (String d "") id = false ->
  upto (String d "") (id ++ String d r) = id.
Proof.
  intros I. unfold upto.
  change (id ++ String d r) with (id ++ String d "" ++ r).
  rewrite cut_at; [reflexivity|].
  intros p c q Hp. cbn [append prefix].
  destruct (ascii_dec d c) as [<-|]; [exfalso | reflexivity].
  apply (not_includes _ _ p q I). exact Hp.
Qed.

Lemma prefix_before_char c X : forall w y Z,
  all_chars (except c) X = true -> w ++ String c y = X ++ Z -> exists w', w = X ++ w'.
Proof.
  induction X as [|x X IH]; intros w y Z A E.
  - exists w. reflexivity.
  - simpl in A. apply andb_prop in A. destruct A as [Ax A].
    destruct w as [|b w]; simpl in E.
    + injection E as -> _. unfold except in Ax. rewrite Ascii.eqb_refl in Ax. discriminate.
    + injection E as -> E. destruct (IH _ _ _ A E) as (w' & ->). exists w'. reflexivity.
Qed.

End OccurrenceFacts.

(* ================================================================== *)
(** * The list-marker rewrite only removes spaces *)

Section OnlySpaces.

Lemma without_spaces_append a b :
  without_spaces (a ++ b) = without_spaces a ++ without_spaces b.
Proof.
  induction a as [|x a IH]; simpl; [reflexivity|].
  destruct (space x); simpl; congruence.
Qed.

Lemma without_spaces_gap gap : all_chars space gap = true -> without_spaces gap = "".
Proof.
  induction gap as [|x gap IH]; simpl; [reflexivity|].
  destruct (space x); [exact IH | discriminate].
Qed.

Lemma postprocess_facts_below (n : nat) : forall s,
  String.length s < n ->
  without_spaces (postprocess s) = without_spaces s /\
  String.length (postprocess s) <= String.length s /\
  (includes "  " s = false -> postprocess s = s).
Proof.
  induction n as [|n IH]; intros s Ln; [lia|].
  destruct (postprocess_round s)
    as [[E _]|(pre & mk & gap & post & M & G & NLp & E & P & L)].
  - rewrite E. auto.
  - assert (Lp : String.length post < n).
    { rewrite E in Ln. repeat (rewrite length_append in Ln; simpl in Ln). lia. }
    destruct (IH post Lp) as (W & Len & Fix).
    rewrite P, E. repeat split.
    + change (String " " gap ++ post) with (String " " (gap ++ post)).
      change (String " " (postprocess post)) with (" " ++ postprocess post).
      change (String " " (gap ++ post)) with (" " ++ gap ++ post).
      rewrite !without_spaces_append, W, (without_spaces_gap gap G). reflexivity.
    + repeat (rewrite length_append; simpl). lia.
    + intros I. destruct gap as [|g gap].
      * simpl. rewrite Fix; [reflexivity|].
        simpl in I. apply (excludes_suffix _ (pre ++ mk ++ " ")).
        rewrite !append_assoc. exact I.
      * exfalso. simpl in G. apply andb_prop in G. destruct G as [Sg G].
        unfold space, just in Sg. apply Ascii.eqb_eq in Sg. subst g.
        apply (not_includes _ _ (pre ++ mk) (gap ++ post) I).
        rewrite !append_assoc. reflexivity.
Qed.

End OnlySpaces.

(* ================================================================== *)
(** * The claims *)

(** Counterexample to C1.  A table figure that holds a caption and no
    table is handled by the table rule, and whatever the serializer and
    the converter are, the rule returns two newlines followed by the
    converted caption, which is not the empty string. *)
Lemma wpBlockTable_caption_without_table :
  option_map rule_name
    (rule_for Sample.serialize Sample.decode_text caption_only_table_figure)
  = Some "wpBlockTable" /\
  wpBlockTable_filter caption_only_table_figure = true /\
  querySelector (ByTag "table") caption_only_table_figure = None /\
  wpBlockTable_replacement Sample.serialize Sample.decode_text ""
    (At None caption_only_table_figure) = NL2 ++ "<figcaption>Prices</figcaption>" /\
  (forall (outerHTML : node -> string) (turndown : string -> string) (content : string),
      wpBlockTable_replacement outerHTML turndown content
        (At None caption_only_table_figure) <> "").
Proof.
  repeat split. intros outerHTML turndown content. discriminate.
Qed.

(** C1, amended.  For a figure flagged as a table wrapper that contains
    no table element, the table rule returns the empty string when the
    figure contains no figcaption element; when it contains one, the
    rule returns two newlines followed by the conversion of the
    caption's markup. *)
Theorem wpBlockTable_without_table
    (outerHTML : node -> string) (turndown : string -> string)
    (content : string) (n : place) :
  wpBlockTable_filter (this n) = true ->
  querySelector (ByTag "table") (this n) = None ->
  wpBlockTable_replacement outerHTML turndown content n =
  match querySelector (ByTag "figcaption") (this n) with
  | None => ""
  | Some figcaption => NL2 ++ turndown (outerHTML figcaption)
  end.
Proof.
  intros _ T. unfold wpBlockTable_replacement. rewrite T.
  destruct (querySelector (ByTag "figcaption") (this n)); reflexivity.
Qed.

Lemma wpBlockTable_without_table_witness :
  wpBlockTable_filter empty_table_figure = true /\
  querySelector (ByTag "table") empty_table_figure = None /\
  wpBlockTable_replacement Sample.serialize Sample.decode_text "no table"
    (At None empty_table_figure) = "".
Proof.
  split; [reflexivity | split; [reflexivity |]].
  apply (wpBlockTable_without_table Sample.serialize Sample.decode_text
           "no table" (At None empty_table_figure)); reflexivity.
Defined.



(** C3, at a failing input.  Without a figcaption the figure rule
    returns the converted children; with one it wraps them in figure
    tags between blank lines and replaces the first run of four newlines
    by two, and only the first.  For an embed figure with a caption the
    converted children start and end with two newlines, so the wrapped
    text holds four newlines in a row twice, after [<figure>] and before
    [</figure>], and the second run is still there in the result. *)
Lemma figure_replacement_keeps_quadruple :
  (forall (content : string) (n : place),
      querySelector (ByTag "figcaption") (this n) = None ->
      figure_replacement content n = content) /\
  (forall (content : string) (n : place) (caption : node),
      querySelector (ByTag "figcaption") (this n) = Some caption ->
      figure_replacement content n =
      replace NL4 NL2 (NL2 ++ "<figure>" ++ NL2 ++ content ++ NL2 ++ "</figure>" ++ NL2)) /\
  querySelector (ByTag "figcaption") captioned_embed <> None /\
  captioned_embed_children =
    NL2 ++ "https://vimeo.com/1" ++ NL2 ++ "<figcaption>" ++ NL2 ++ "cap" ++ NL2 ++
    "</figcaption>" ++ NL2 /\
  figure_replacement captioned_embed_children (At None captioned_embed) =
    NL2 ++ "<figure>" ++ NL2 ++ "https://vimeo.com/1" ++ NL2 ++ "<figcaption>" ++ NL2 ++
    "cap" ++ NL2 ++ "</figcaption>" ++ NL4 ++ "</figure>" ++ NL2 /\
  includes NL4
    (figure_replacement captioned_embed_children (At None captioned_embed)) = true.
Proof.
  split; [|split; [|split; [discriminate | repeat split]]].
  - intros content n H. rewrite figure_replacement_cases, H. reflexivity.
  - intros content n caption H. rewrite figure_replacement_cases, H. reflexivity.
Qed.

(** Counterexample to C4 as it is worded.  In a URL where [watch?v=]
    comes a second time before any ampersand, the identifier the code
    returns ends at that second [watch?v=], while the text after the
    first [watch?v=] up to the next ampersand runs on to the end. *)
Lemma extractYoutubeVideoId_second_marker :
  extractYoutubeVideoId "https://www.youtube.com/watch?v=ABC123watch?v=DEF456" = "ABC123" /\
  segment_between "watch?v=" "&" "https://www.youtube.com/watch?v=ABC123watch?v=DEF456"
  = "ABC123watch?v=DEF456".
Proof. split; reflexivity. Qed.

(** C4, amended.  The identifier is the text after the first [watch?v=]
    cut at the next [watch?v=] and then at the first ampersand, when the
    URL contains [watch?v=]; else the text after the first [youtu.be/]
    cut at the next [youtu.be/] and then at the first question mark,
    when the URL contains [youtu.be/]; else empty ([upto] and
    [after_first] cut at the first occurrence).  When the identifier
    read from the wrapper is empty, or there is no wrapper, the video
    rule returns the converted children.  The three URLs of the
    specification give ABC123, XYZ789 and the fallback. *)
Theorem extractYoutubeVideoId_spec :
  (forall url : string,
      extractYoutubeVideoId url =
      if includes "watch?v=" url
      then upto "&" (upto "watch?v=" (after_first "watch?v=" url))
      else if includes "youtu.be/" url
           then upto "?" (upto "youtu.be/" (after_first "youtu.be/" url))
           else "") /\
  (forall sep s : string,
      (includes sep s = false /\ upto sep s = s /\ after_first sep s = "") \/
      (includes sep s = true /\
       s = upto sep s ++ sep ++ after_first sep s /\
       forall p c q, upto sep s = p ++ String c q ->
                     prefix sep (String c q ++ sep ++ after_first sep s) = false)) /\
  (forall (content : string) (n : place),
      wpEmbedYoutube_replacement content n =
      match querySelector (ByClass "wp-block-embed__wrapper") (this n) with
      | None => content
      | Some wrapper =>
          let videoId := extractYoutubeVideoId (trim (textContent wrapper)) in
          if String.eqb videoId "" then content else youtube_iframe videoId
      end) /\
  extractYoutubeVideoId "https://www.youtube.com/watch?v=ABC123&feature=x" = "ABC123" /\
  extractYoutubeVideoId "https://youtu.be/XYZ789?t=5" = "XYZ789" /\
  extractYoutubeVideoId "https://example.com/video" = "" /\
  (forall (content : string) (prev : option node),
      wpEmbedYoutube_replacement content
        (At prev (youtube_figure "https://example.com/video")) = content) /\
  (forall (content : string) (prev : option node),
      wpEmbedYoutube_replacement content
        (At prev (youtube_figure "https://youtu.be/XYZ789?t=5")) = youtube_iframe "XYZ789").
Proof.
  split; [|split; [exact upto_after_first | repeat split; try reflexivity]].
  - intros url. unfold extractYoutubeVideoId.
    rewrite extractYoutubeVideoId_try_value. reflexivity.
  - intros content n. unfold wpEmbedYoutube_replacement.
    destruct (querySelector _ _) as [wrapper|]; [|reflexivity].
    cbv zeta. destruct (extractYoutubeVideoId _); reflexivity.
Qed.

(** C5, at failing inputs.  With the flag disabled nothing changes, and
    with it enabled a lone tag with a recognised extension gets
    [images/] before its file name while a lone tag whose source ends in
    [.bmp] is unchanged, as the claim says.  But a tag whose source ends
    in [.bmp] is not left as it is when an image file name with a
    recognised extension comes later on the line: the match starts at
    the first tag and skips to the later file name, so the first tag's
    source and the start of the second tag are deleted.  And in a tag
    with a second attribute whose name ends in [src], that attribute is
    rewritten and [src] is not. *)
Lemma rewrite_image_paths_eats_other_extension :
  (forall s : string, rewrite_image_paths (Config false) s = s) /\
  rewrite_image_paths (Config true) ("<img src=" ++ DQ ++ "foo.png" ++ DQ ++ ">")
  = "<img src=" ++ DQ ++ "images/foo.png" ++ DQ ++ ">" /\
  rewrite_image_paths (Config true) ("<img src=" ++ DQ ++ "foo.bmp" ++ DQ ++ ">")
  = "<img src=" ++ DQ ++ "foo.bmp" ++ DQ ++ ">" /\
  rewrite_image_paths (Config true)
    ("<img src=" ++ DQ ++ "foo.bmp" ++ DQ ++ "><img src=" ++ DQ ++ "bar.png" ++ DQ ++ ">")
  = "<img src=" ++ DQ ++ "images/bar.png" ++ DQ ++ ">" /\
  rewrite_image_paths (Config true)
    ("<img src=" ++ DQ ++ "a.png" ++ DQ ++ " data-src=" ++ DQ ++ "b.png" ++ DQ ++ ">")
  = "<img src=" ++ DQ ++ "a.png" ++ DQ ++ " data-src=" ++ DQ ++ "images/b.png" ++ DQ ++ ">".
Proof. split; [reflexivity | repeat split; vm_compute; reflexivity]. Qed.

(** C6.  The postprocessing is idempotent. *)
Theorem postprocess_idempotent :
  forall s : string, postprocess (postprocess s) = postprocess s.
Proof. exact postprocess_idempotent_any. Qed.

(** C7.  The postprocessing replaces each marker (a dash, or digits and
    a dot: what the group of the pattern matches) that is followed by
    one or more spaces by the marker and one space: the input either holds no marker followed by a space and is
    returned as it is, or it reads [pre], marker, spaces, [post] with
    that marker the leftmost one followed by a space and [post] not
    starting with a space, and the output is [pre], the marker, one
    space, and [post] postprocessed.  The output holds no marker
    followed by two spaces.  The two examples of the specification come
    out as stated. *)
Theorem postprocess_one_space :
  postprocess "-   item" = "- item" /\
  postprocess "12.   item" = "12. item" /\
  (forall mk : string, marker mk <-> matches false re_marker mk) /\
  (forall s p mk X : string,
      marker mk -> postprocess s <> p ++ mk ++ "  " ++ X) /\
  (forall s : string,
      (postprocess s = s /\
       forall p mk X, marker mk -> s <> p ++ mk ++ String " " X) \/
      (exists pre mk gap post,
          marker mk /\ all_chars space gap = true /\ no_lead post /\
          s = pre ++ mk ++ String " " gap ++ post /\
          postprocess s = pre ++ mk ++ String " " (postprocess post) /\
          forall p b q mk' X, pre = p ++ String b q -> marker mk' ->
                              String b q ++ mk ++ String " " gap ++ post
                              <> mk' ++ String " " X)).
Proof.
  split; [reflexivity|]. split; [reflexivity|].
  split; [exact marker_pattern|]. split.
  - intros s p mk X M. apply (postprocess_no_wide_marker s p mk X M).
  - intros s. destruct (postprocess_round s)
      as [[E N]|(pre & mk & gap & post & M & G & NLp & E & P & L)].
    + left. split; [assumption|]. intros p mk X M H.
      pose proof (N p _ H) as A. rewrite marker_at_build in A by assumption.
      discriminate.
    + right. exists pre, mk, gap, post. repeat (split; [assumption|]).
      intros p b q mk' X Hp M' H.
      pose proof (L p b q (gap ++ post) Hp) as A.
      change (String " " gap ++ post) with (String " " (gap ++ post)) in H.
      rewrite H, marker_at_build in A by assumption. discriminate.
Qed.

(** C8, at failing inputs.  The blank lines are as the claim says: the
    script rule puts one newline before the markup when the node has a
    previous sibling that is not a text node, two otherwise, and two
    after it.  But the attribute is not what is rewritten: the rules
    replace the first place where the text [allowfullscreen=] (or
    [async=]) with two quotes stands in the markup.  In the embed code of
    a video player that has the prefixed attributes webkitallowfullscreen
    and mozallowfullscreen before allowfullscreen, that place is inside
    the first prefixed attribute, and the attribute allowfullscreen
    itself keeps its empty value in the output; likewise the attribute
    async after an attribute data-async.  This holds for every
    serializer that writes these two nodes as the fragment serialization
    does. *)
Lemma iframe_replacement_keeps_empty_allowfullscreen :
  (forall (outerHTML : node -> string) (content : string) (n : place),
      let html := replace ("async=" ++ DQ ++ DQ) "async" (outerHTML (this n)) in
      (forall p, previousSibling n = Some p -> nodeName p <> "#text" ->
                 script_replacement outerHTML content n = NL ++ html ++ NL2) /\
      (forall p, previousSibling n = Some p -> nodeName p = "#text" ->
                 script_replacement outerHTML content n = NL2 ++ html ++ NL2) /\
      (previousSibling n = None ->
       script_replacement outerHTML content n = NL2 ++ html ++ NL2)) /\
  (forall pat by_ s : string,
      (includes pat s = false /\ replace pat by_ s = s) \/
      (exists b a,
          s = b ++ pat ++ a /\ replace pat by_ s = b ++ by_ ++ a /\
          forall p c q, b = p ++ String c q ->
                        prefix pat (String c q ++ pat ++ a) = false)) /\
  Sample.serialize vimeo_iframe = vimeo_iframe_html /\
  (forall (outerHTML : node -> string) (content : string) (prev : option node),
      outerHTML vimeo_iframe = vimeo_iframe_html ->
      iframe_replacement outerHTML content (At prev vimeo_iframe) =
      NL2 ++ "<iframe src=" ++ DQ ++ "https://player.vimeo.com/video/1" ++ DQ ++
      " webkitallowfullscreen mozallowfullscreen=" ++ DQ ++ DQ ++
      " allowfullscreen=" ++ DQ ++ DQ ++ "></iframe>" ++ NL2) /\
  includes (" allowfullscreen=" ++ DQ ++ DQ)
    (iframe_replacement Sample.serialize "" (At None vimeo_iframe)) = true /\
  Sample.serialize lazy_script = lazy_script_html /\
  (forall (outerHTML : node -> string) (content : string),
      outerHTML lazy_script = lazy_script_html ->
      script_replacement outerHTML content (At None lazy_script) =
      NL2 ++ "<script data-async async=" ++ DQ ++ DQ ++
      " src=" ++ DQ ++ "https://example.com/w.js" ++ DQ ++ "></script>" ++ NL2) /\
  includes (" async=" ++ DQ ++ DQ)
    (script_replacement Sample.serialize "" (At None lazy_script)) = true.
Proof.
  split; [|split; [exact replace_spec | repeat split]].
  - intros outerHTML content n html. unfold script_replacement, script_before.
    fold html. repeat split.
    + intros p P N. rewrite P.
      destruct (String.eqb_spec (nodeName p) "#text"); [contradiction | reflexivity].
    + intros p P N. rewrite P, N. reflexivity.
    + intros P. rewrite P. reflexivity.
  - intros outerHTML content prev H. unfold iframe_replacement. cbn [this].
    rewrite H. reflexivity.
  - intros outerHTML content H. unfold script_replacement. cbn [this].
    rewrite H. reflexivity.
Qed.

(** C9.  Video identifier extraction is total and never throws: on every
    string the body of the [try] block completes normally with the
    string that [extractYoutubeVideoId] returns, so the [catch] branch
    is never taken; a URL that ends right after [watch?v=] or
    [youtu.be/] gives the empty identifier. *)
Theorem extractYoutubeVideoId_never_throws :
  (forall url : string,
      extractYoutubeVideoId_try url = Normal (extractYoutubeVideoId url)) /\
  (forall url : string, extractYoutubeVideoId_try url <> Throw) /\
  extractYoutubeVideoId "https://www.youtube.com/watch?v=" = "" /\
  extractYoutubeVideoId "https://youtu.be/" = "".
Proof.
  split; [|split; [|split; reflexivity]].
  - intros url. unfold extractYoutubeVideoId.
    rewrite extractYoutubeVideoId_try_value. reflexivity.
  - intros url. rewrite extractYoutubeVideoId_try_value. discriminate.
Qed.

(** C10.  The rewrite does not look at where a marker stands.  A string
    that holds, anywhere, a dash or digits and a dot followed by two
    spaces is changed by the postprocessing; so is the Markdown the
    converter returned, and so is the fenced block the pre rule emits
    for a node whose text holds such a pattern.  A code block with
    [a -  b] in it and prose with [3.  b] in the middle of a line are
    both rewritten. *)
Theorem postprocess_anywhere :
  (forall p mk X : string,
      marker mk ->
      postprocess (p ++ mk ++ "  " ++ X) <> p ++ mk ++ "  " ++ X) /\
  (forall (turndown : string -> string) (cfg : config) (content p mk X : string),
      marker mk ->
      turndown (preprocess cfg content) = p ++ mk ++ "  " ++ X ->
      convert turndown cfg content <> turndown (preprocess cfg content)) /\
  (forall (content : string) (n : place) (p mk X : string),
      marker mk ->
      textContent (this n) = p ++ mk ++ "  " ++ X ->
      postprocess (pre_replacement content n) <> pre_replacement content n) /\
  pre_replacement "" (At None code_block) =
    NL2 ++ "```python" ++ NL ++ "total = a -  b" ++ NL ++ "```" ++ NL2 /\
  postprocess (pre_replacement "" (At None code_block)) =
    NL2 ++ "```python" ++ NL ++ "total = a - b" ++ NL ++ "```" ++ NL2 /\
  postprocess "see section 3.  below" = "see section 3. below".
Proof.
  split; [|split; [|split; [|repeat split]]].
  - intros p mk X M. apply (postprocess_no_wide_marker _ p mk X M).
  - intros turndown cfg content p mk X M H. unfold convert. rewrite H.
    apply (postprocess_no_wide_marker _ p mk X M).
  - intros content n p mk X M H. unfold pre_replacement. rewrite H.
    set (language := match getAttribute "data-wetm-language" (this n) with
                     | Some v => if truthy v then v else ""
                     | None => ""
                     end).
    replace (NL2 ++ "```" ++ language ++ NL ++ (p ++ mk ++ "  " ++ X) ++ NL ++ "```" ++ NL2)
      with ((NL2 ++ "```" ++ language ++ NL ++ p) ++ mk ++ "  " ++ (X ++ NL ++ "```" ++ NL2))
      by (repeat rewrite append_assoc; reflexivity).
    apply (postprocess_no_wide_marker _ _ mk _ M).
Qed.


(* ================================================================== *)
(** * The choice of a rule *)

Section RuleChoice.

Variable outerHTML : node -> string.
Variable turndown : string -> string.

(** The added rules are tried from the last one added to the first. *)
Lemma rule_for_cascade (n : node) :
  option_map rule_name (rule_for outerHTML turndown n) =
  if wpEmbedYoutube_filter n then Some "wpEmbedYoutube"
  else if wpBlockTable_filter n then Some "wpBlockTable"
  else if pre_filter n then Some "pre"
  else if figcaption_filter n then Some "figcaption"
  else if figure_filter n then Some "figure"
  else if iframe_filter n then Some "iframe"
  else if script_filter n then Some "script"
  else if codepen_filter n then Some "codepen"
  else if tweet_filter n then Some "tweet"
  else None.
Proof.
  unfold rule_for, initTurndownService.
  cbn [rev app find filter].
  repeat match goal with
         | |- context [if ?f n then _ else _] => destruct (f n); [reflexivity|]
         end.
  reflexivity.
Qed.

Lemma forNode_rule_for (isBlank : node -> bool) (n : node) :
  forNode outerHTML turndown isBlank n =
  if isBlank n then BlankRule
  else match option_map rule_name (rule_for outerHTML turndown n) with
       | Some name => AddedRule name
       | None => LibraryRule
       end.
Proof.
  unfold forNode. destruct (isBlank n); [reflexivity|].
  destruct (rule_for outerHTML turndown n); reflexivity.
Qed.

End RuleChoice.

(* ================================================================== *)
(** * The paragraph separator *)

Section Paragraphs.

Lemma blank_line_sound s rest c :
  match_at false re_blank_line s = Some (rest, c) ->
  exists b1 b2, line_break b1 /\ line_break b2 /\ s = b1 ++ b2 ++ rest.
Proof.
  intros H. destruct (match_at_sound _ _ _ _ _ H) as (w & -> & D). clear H.
  unfold re_blank_line, Opt in D.
  inv_derives;
    repeat match goal with
           | H : canon false _ = canon false _ |- _ => apply canon_exact in H; subst
           end.
  all: first
    [ exists (CR ++ LF), (CR ++ LF); split; [constructor|split; [constructor|reflexivity]]
    | exists (CR ++ LF), LF; split; [constructor|split; [constructor|reflexivity]]
    | exists LF, (CR ++ LF); split; [constructor|split; [constructor|reflexivity]]
    | exists LF, LF; split; [constructor|split; [constructor|reflexivity]] ].
Qed.

Lemma blank_line_complete b1 b2 rest :
  line_break b1 -> line_break b2 ->
  match_at false re_blank_line (b1 ++ b2 ++ rest) <> None.
Proof. intros [|] [|]; discriminate. Qed.

Lemma line_break_head b : line_break b -> exists x t, b = String x t.
Proof. intros [|]; eexists; eexists; reflexivity. Qed.

Lemma separate_paragraphs_cases (s : string) :
  (separate_paragraphs s = s /\
   forall p b1 b2 q, line_break b1 -> line_break b2 -> s <> p ++ b1 ++ b2 ++ q) \/
  (exists pre b1 b2 post,
      line_break b1 /\ line_break b2 /\
      s = pre ++ b1 ++ b2 ++ post /\
      separate_paragraphs s =
      pre ++ LF ++ "<div></div>" ++ LF ++ separate_paragraphs post /\
      forall p b q b1' b2' post',
        pre = p ++ String b q -> line_break b1' -> line_break b2' ->
        String b q ++ b1 ++ b2 ++ post <> b1' ++ b2' ++ post').
Proof.
  unfold separate_paragraphs. rewrite replace_all_step.
  destruct (search false re_blank_line s) as [f|] eqn:S.
  - right. destruct (search_some _ _ _ _ S) as (W & M & _ & L).
    destruct (blank_line_sound _ _ _ M) as (b1 & b2 & B1 & B2 & E).
    assert (Em : matched f = b1 ++ b2).
    { apply (append_inv_tail _ _ (after f)). rewrite E, append_assoc. reflexivity. }
    exists (before f), b1, b2, (after f).
    split; [assumption|]. split; [assumption|].
    split; [rewrite W, Em, !append_assoc; reflexivity|].
    split.
    + cbn [expand]. destruct (line_break_head _ B1) as (x & t & Hb).
      rewrite Em, Hb. cbn [append]. rewrite !append_nil_r. reflexivity.
    + intros p b q b1' b2' post' Hp B1' B2' H.
      specialize (L p b q Hp). rewrite Em, append_assoc, H in L.
      apply (blank_line_complete b1' b2' post' B1' B2'), L.
  - left. split; [reflexivity|].
    intros p b1 b2 q B1 B2 H.
    apply (blank_line_complete b1 b2 q B1 B2).
    apply (search_none _ _ _ S p _ H).
Qed.

End Paragraphs.

(* ================================================================== *)
(** * The language of a code block *)

Section CodeLanguage.

Lemma code_language_sound s rest c :
  match_at false re_code_language s = Some (rest, c) ->
  exists kind lang nl,
    language_block kind lang nl /\
    s = block_open kind lang nl ++ rest /\
    capture 1 c = Some (block_open kind lang nl) /\
    capture 2 c = Some lang.
Proof.
  intros H. destruct (match_at_sound _ _ _ _ _ H) as (w & -> & D). clear H.
  unfold re_code_language, Opt, Plus in D. cbn [Seqs Str] in D.
  inv_derives;
    repeat match goal with
           | H : canon false _ = canon false _ |- _ => apply canon_exact in H; subst
           end.
  - match goal with
    | K : dot ?k0 = true, Kt : all_chars dot ?kt = true,
      L : dot ?l0 = true, Lt : all_chars dot ?lt = true |- _ =>
        exists (String k0 kt), (String l0 lt), (CR ++ LF)
    end.
    split; [split; [split; [discriminate | simpl; rewrite ?andb_true_iff; auto] ..
                   | constructor]|].
    unfold block_open, LANGUAGE_KEY, DQ, dq.
    split; [norm_append; reflexivity|].
    cbn [capture Nat.eqb]. split; f_equal; norm_append; reflexivity.
  - match goal with
    | K : dot ?k0 = true, Kt : all_chars dot ?kt = true,
      L : dot ?l0 = true, Lt : all_chars dot ?lt = true |- _ =>
        exists (String k0 kt), (String l0 lt), LF
    end.
    split; [split; [split; [discriminate | simpl; rewrite ?andb_true_iff; auto] ..
                   | constructor]|].
    unfold block_open, LANGUAGE_KEY, DQ, dq.
    split; [norm_append; reflexivity|].
    cbn [capture Nat.eqb]. split; f_equal; norm_append; reflexivity.
Qed.

Lemma derives_str lit c : derives false (Str lit) lit c c.
Proof.
  induction lit as [|a lit IH]; cbn [Str]; [constructor|].
  change (String a lit) with (String a "" ++ lit).
  apply d_seq with (c1 := c); [constructor; reflexivity | assumption].
Qed.

Lemma derives_seq icase r1 r2 w w1 w2 c c1 c2 :
  derives icase r1 w1 c c1 -> w = w1 ++ w2 -> derives icase r2 w2 c1 c2 ->
  derives icase (Seq r1 r2) w c c2.
Proof. intros D1 -> D2. apply d_seq with (c1 := c1); assumption. Qed.

Lemma derives_plus g p w c :
  w <> "" -> all_chars p w = true -> derives false (Plus g p) w c c.
Proof.
  destruct w as [|b w]; [congruence|]. intros _ H. simpl in H.
  apply andb_prop in H. destruct H as [Hb Hw].
  change (String b w) with (String b "" ++ w).
  apply d_seq with (c1 := c); constructor; assumption.
Qed.

Lemma code_language_complete kind lang nl rest :
  language_block kind lang nl ->
  match_at false re_code_language (block_open kind lang nl ++ rest) <> None.
Proof.
  intros [[Kn Kd] [Ln Ld] B].
  apply (match_at_complete false re_code_language (block_open kind lang nl)
           [(1, block_open kind lang nl); (2, lang)]).
  unfold re_code_language. apply d_group. cbn [Seqs].
  unfold block_open, LANGUAGE_KEY.
  eapply derives_seq; [apply derives_str | reflexivity |].
  eapply derives_seq; [apply (derives_plus _ _ kind); assumption | reflexivity |].
  rewrite !append_assoc.
  eapply derives_seq; [apply derives_str | reflexivity |].
  eapply derives_seq; [apply d_chr; reflexivity | reflexivity |].
  eapply derives_seq; [apply derives_str | reflexivity |].
  eapply derives_seq; [apply d_chr; reflexivity | reflexivity |].
  eapply derives_seq; [apply derives_str | reflexivity |].
  eapply derives_seq; [apply d_chr; reflexivity | reflexivity |].
  eapply derives_seq; [apply d_group, (derives_plus _ _ lang); assumption | reflexivity |].
  eapply derives_seq; [apply d_chr; reflexivity | reflexivity |].
  eapply derives_seq; [apply derives_str | reflexivity |].
  destruct B.
  - eapply derives_seq; [apply d_alt_r, d_eps | reflexivity |].
    eapply derives_seq; [apply d_chr; reflexivity | reflexivity |].
    apply derives_str.
  - eapply derives_seq; [apply d_alt_l, d_chr; reflexivity | reflexivity |].
    eapply derives_seq; [apply d_chr; reflexivity | reflexivity |].
    apply derives_str.
Qed.

Lemma block_open_head kind lang nl :
  exists t, block_open kind lang nl = String "<" t.
Proof. eexists; reflexivity. Qed.

Lemma annotate_code_language_cases (s : string) :
  (annotate_code_language s = s /\
   forall p kind lang nl q,
     language_block kind lang nl -> s <> p ++ block_open kind lang nl ++ q) \/
  (exists pre kind lang nl post,
      language_block kind lang nl /\
      s = pre ++ block_open kind lang nl ++ post /\
      annotate_code_language s =
      pre ++ block_open kind lang nl ++ language_attribute lang ++
      annotate_code_language post /\
      forall p b q kind' lang' nl' post',
        pre = p ++ String b q -> language_block kind' lang' nl' ->
        String b q ++ block_open kind lang nl ++ post <>
        block_open kind' lang' nl' ++ post').
Proof.
  unfold annotate_code_language. rewrite replace_all_step.
  destruct (search false re_code_language s) as [f|] eqn:S.
  - right. destruct (search_some _ _ _ _ S) as (W & M & _ & L).
    destruct (code_language_sound _ _ _ M) as (kind & lang & nl & B & E & C1 & C2).
    assert (Em : matched f = block_open kind lang nl).
    { apply (append_inv_tail _ _ (after f)). exact E. }
    exists (before f), kind, lang, nl, (after f).
    split; [assumption|].
    split; [rewrite W, Em; reflexivity|].
    split.
    + cbn [expand]. rewrite C1, C2.
      destruct (block_open_head kind lang nl) as (t & Hb).
      rewrite Em, Hb. unfold language_attribute.
      rewrite <- Hb. norm_append. reflexivity.
    + intros p b q kind' lang' nl' post' Hp B' H.
      specialize (L p b q Hp). rewrite Em, H in L.
      apply (code_language_complete kind' lang' nl' post' B'), L.
  - left. split; [reflexivity|].
    intros p kind lang nl q B H.
    apply (code_language_complete kind lang nl q B).
    apply (search_none _ _ _ S p _ H).
Qed.

(** The match attempt at a block whose kind and language hold no
    quote: the lazy repetitions stop at the first key and at the first
    quote. *)
Lemma block_close_match nl post c k r :
  line_break nl -> k post c = Some r ->
  m false re_block_close (DQ ++ "} -->" ++ nl ++ "<pre " ++ post) c k = Some r.
Proof.
  intros [|] H; unfold re_block_close, Opt; cbn; rewrite H; reflexivity.
Qed.

Lemma lang_match lang nl post c k r :
  lang <> "" -> all_chars dot lang = true -> all_chars (except dq) lang = true ->
  line_break nl -> k post ((2, lang) :: c) = Some r ->
  m false (Seq (Group 2 (Plus false dot)) re_block_close)
    (lang ++ DQ ++ "} -->" ++ nl ++ "<pre " ++ post) c k = Some r.
Proof.
  intros Ln Ld Lq B H. destruct lang as [|l0 lt]; [congruence|].
  simpl in Ld, Lq. apply andb_prop in Ld, Lq. destruct Ld as [Ld0 Ld], Lq as [Lq0 Lq].
  set (T := DQ ++ "} -->" ++ nl ++ "<pre " ++ post).
  cbn [m Plus append]. rewrite Ld0.
  rewrite star_lazy_skip.
  - apply star_lazy_here.
    change (String l0 (lt ++ T)) with (String l0 lt ++ T).
    rewrite consumed_append. apply block_close_match; assumption.
  - assumption.
  - intros u b v E. rewrite E in Lq. apply all_chars_suffix in Lq.
    unfold re_block_close. cbn [Seqs m append canon andb].
    unfold except in Lq. rewrite Bool.negb_true_iff in Lq. rewrite Lq. reflexivity.
Qed.

Lemma key_match r S c k :
  m false (re_language_key r) (LANGUAGE_KEY ++ S) c k = m false r S c k.
Proof. reflexivity. Qed.

Lemma key_fail r b v T c k :
  all_chars (except dq) (String b v) = true ->
  m false (re_language_key r) (String b v ++ LANGUAGE_KEY ++ T) c k = None.
Proof.
  intros Q. unfold re_language_key. cbn [Seqs Str m append canon andb].
  destruct (Ascii.eqb " " b); [|reflexivity].
  destruct v as [|c1 v]; [reflexivity|]. cbn [append].
  destruct (Ascii.eqb "{" c1); [|reflexivity].
  destruct v as [|c2 v]; [reflexivity|]. cbn [append].
  change (String b (String c1 (String c2 v)))
    with ((String b (String c1 "")) ++ String c2 v) in Q.
  apply all_chars_suffix in Q. unfold except in Q. rewrite Bool.negb_true_iff in Q.
  rewrite Q. reflexivity.
Qed.

Lemma kind_match r kind T c k res :
  kind <> "" -> all_chars dot kind = true -> all_chars (except dq) kind = true ->
  m false r T c k = Some res ->
  m false (Seq (Plus false dot) (re_language_key r)) (kind ++ LANGUAGE_KEY ++ T) c k
  = Some res.
Proof.
  intros Kn Kd Kq H. destruct kind as [|k0 kt]; [congruence|].
  simpl in Kd. apply andb_prop in Kd. destruct Kd as [Kd0 Kd].
  change (m false (Seq (Plus false dot) (re_language_key r))
            (String k0 kt ++ LANGUAGE_KEY ++ T) c k)
    with (if dot k0
          then star_lazy dot (fun s' => m false (re_language_key r) s' c k)
                 (kt ++ LANGUAGE_KEY ++ T)
          else None).
  rewrite Kd0. rewrite star_lazy_skip.
  - apply star_lazy_here. rewrite key_match. assumption.
  - assumption.
  - intros u b v E. apply key_fail.
    simpl in Kq. apply andb_prop in Kq. destruct Kq as [_ Kq].
    rewrite E, all_chars_append in Kq. apply andb_prop in Kq. apply Kq.
Qed.

Lemma plain_block_match kind lang nl post :
  language_block kind lang nl ->
  all_chars (except dq) kind = true -> all_chars (except dq) lang = true ->
  match_at false re_code_language (block_open kind lang nl ++ post)
  = Some (post, [(1, block_open kind lang nl); (2, lang)]).
Proof.
  intros [[Kn Kd] [Ln Ld] B] Kq Lq.
  unfold match_at.
  change re_code_language
    with (Group 1 (Seq (Str "<!-- wp:")
                     (Seq (Plus false dot)
                        (re_language_key (Seq (Group 2 (Plus false dot)) re_block_close))))).
  set (S0 := block_open kind lang nl ++ post).
  set (K0 := fun (s1 : string) (c1 : caps) => keep s1 ((1, consumed S0 s1) :: c1)).
  change (m false (Seq (Str "<!-- wp:")
                     (Seq (Plus false dot)
                        (re_language_key (Seq (Group 2 (Plus false dot)) re_block_close))))
            S0 [] K0
          = Some (post, [(1, block_open kind lang nl); (2, lang)])).
  assert (ES : S0 = "<!-- wp:" ++ kind ++ LANGUAGE_KEY ++ lang ++ DQ ++ "} -->" ++ nl ++
                    "<pre " ++ post)
    by (unfold S0, block_open; norm_append; reflexivity).
  rewrite ES.
  change (m false (Seq (Plus false dot)
                     (re_language_key (Seq (Group 2 (Plus false dot)) re_block_close)))
            (kind ++ LANGUAGE_KEY ++ lang ++ DQ ++ "} -->" ++ nl ++ "<pre " ++ post) [] K0
          = Some (post, [(1, block_open kind lang nl); (2, lang)])).
  apply kind_match; try assumption.
  apply lang_match; try assumption.
  unfold K0, keep, S0. rewrite consumed_append. reflexivity.
Qed.

(** No attempt succeeds inside text that ends a line and holds no
    language key. *)
Lemma no_block_before pre tail :
  pre = "" \/ (exists pre', pre = pre' ++ LF) ->
  includes LANGUAGE_KEY pre = false ->
  forall p b q, pre = p ++ String b q ->
                match_at false re_code_language (String b q ++ tail) = None.
Proof.
  intros [->|(pre' & Hpre)] I p b q Hp; [destruct p; discriminate|].
  destruct (match_at false re_code_language _) as [[rest c]|] eqn:M; [exfalso | reflexivity].
  destruct (code_language_sound _ _ _ M) as (kind & lang & nl & [[_ Kd] _ _] & E & _).
  rewrite Hpre in Hp.
  destruct (suffix_of_snoc _ _ _ _ _ Hp) as (w & Hw).
  rewrite Hw, (append_assoc w) in E.
  change (String (ascii_of_nat 10) "" ++ tail) with (String lf tail) in E.
  unfold block_open in E.
  replace (("<!-- wp:" ++ kind ++ LANGUAGE_KEY ++ lang ++ DQ ++ "} -->" ++ nl ++ "<pre ") ++ rest)
    with (("<!-- wp:" ++ kind ++ LANGUAGE_KEY) ++ (lang ++ DQ ++ "} -->" ++ nl ++ "<pre " ++ rest))
    in E by (norm_append; reflexivity).
  apply prefix_before_char in E.
  - destruct E as (w' & ->).
    apply (not_includes _ _ (p ++ "<!-- wp:" ++ kind) (w' ++ LF) I).
    rewrite Hpre, Hp, Hw. norm_append. reflexivity.
  - change ("<!-- wp:" ++ kind ++ LANGUAGE_KEY) with ("<!-- wp:" ++ (kind ++ LANGUAGE_KEY)).
    rewrite !all_chars_append.
    rewrite (all_chars_weaken dot (except lf) kind); [reflexivity | | assumption].
    intros x. unfold dot, except.
    rewrite Bool.negb_orb, andb_true_iff, (Ascii.eqb_sym x). intros [H _]. exact H.
Qed.

End CodeLanguage.

(* ================================================================== *)
(** * Content without markup *)

Section PlainText.

Lemma separate_paragraphs_single_breaks s :
  includes (LF ++ LF) s = false -> includes (LF ++ CR ++ LF) s = false ->
  separate_paragraphs s = s.
Proof.
  intros H1 H2.
  destruct (separate_paragraphs_cases s) as [[E _]|(pre & b1 & b2 & post & B1 & B2 & E & _)];
    [assumption | exfalso].
  destruct B1, B2.
  - apply (not_includes _ _ pre post H1). rewrite E. norm_append. reflexivity.
  - apply (not_includes _ _ pre post H2). rewrite E. norm_append. reflexivity.
  - apply (not_includes _ _ (pre ++ CR) post H1). rewrite E. norm_append. reflexivity.
  - apply (not_includes _ _ (pre ++ CR) post H2). rewrite E. norm_append. reflexivity.
Qed.

Lemma rewrite_image_paths_no_tag cfg s :
  includes "<" s = false -> rewrite_image_paths cfg s = s.
Proof.
  intros H. unfold rewrite_image_paths. destruct (saveScrapedImages cfg); [|reflexivity].
  rewrite replace_all_step.
  destruct (search true re_img_src s) as [f|] eqn:S; [exfalso | reflexivity].
  destruct (search_some _ _ _ _ S) as (W & M & _).
  destruct (img_src_needs_img _ _ M) as (b1 & b2 & b3 & rest & E & _).
  apply (not_includes _ _ (before f) (String b1 (String b2 (String b3 rest))) H).
  rewrite W, E. reflexivity.
Qed.

Lemma escape_more_no_tag s : includes "<" s = false -> escape_more s = s.
Proof.
  intros H.
  destruct (escape_more_cases s) as [[E _]|(pre & body & post & _ & E & _)];
    [assumption | exfalso].
  apply (not_includes _ _ pre (body ++ ">" ++ post) H). exact E.
Qed.

Lemma annotate_code_language_no_tag s :
  includes "<" s = false -> annotate_code_language s = s.
Proof.
  intros H.
  destruct (annotate_code_language_cases s)
    as [[E _]|(pre & kind & lang & nl & post & _ & E & _)]; [assumption | exfalso].
  destruct (block_open_head kind lang nl) as (t & Hb).
  apply (not_includes _ _ pre (t ++ post) H). rewrite E, Hb. reflexivity.
Qed.

Lemma preprocess_plain cfg s :
  includes "<" s = false ->
  includes (LF ++ LF) s = false -> includes (LF ++ CR ++ LF) s = false ->
  preprocess cfg s = s.
Proof.
  intros H L1 L2. unfold preprocess.
  rewrite (separate_paragraphs_single_breaks s L1 L2).
  rewrite (rewrite_image_paths_no_tag cfg s H).
  rewrite (escape_more_no_tag s H).
  apply annotate_code_language_no_tag, H.
Qed.

End PlainText.

(* ================================================================== *)
(** * Video identifiers of well-formed addresses *)

Section VideoId.

Lemma segment_round_trip (m0 : ascii) (mt : string) (d : ascii) (base id tail : string) :
  (forall u v, String m0 mt = u ++ String m0 v -> u = "") ->
  all_chars (except d) (String m0 mt) = true ->
  includes (String m0 mt) base = false ->
  includes (String m0 mt) id = false ->
  includes (String d "") id = false ->
  tail = "" \/ (exists t, tail = String d t) ->
  includes (String m0 mt) (base ++ String m0 mt ++ id ++ tail) = true /\
  upto (String d "") (upto (String m0 mt) (after_first (String m0 mt)
                                            (base ++ String m0 mt ++ id ++ tail))) = id.
Proof.
  intros NB A Ib Ii Id T. split; [apply includes_occurrence|].
  unfold after_first. rewrite (first_occurrence m0 mt base (id ++ tail) NB Ib).
  destruct T as [->|(t & ->)].
  - rewrite append_nil_r, (upto_none _ _ Ii). apply upto_none, Id.
  - destruct (upto_past_delimiter m0 mt d id t A Ii) as (r & ->).
    apply upto_delimiter, Id.
Qed.

Lemma watch_marker_no_overlap u v : "watch?v=" = u ++ String "w" v -> u = "".
Proof.
  destruct u as [|c u]; [reflexivity|]. intros H. exfalso.
  cbn [append] in H. injection H as _ H.
  repeat (destruct u as [|? u]; cbn [append] in H; [discriminate | injection H as _ H]).
  destruct u; discriminate.
Qed.

Lemma short_marker_no_overlap u v : "youtu.be/" = u ++ String "y" v -> u = "".
Proof.
  destruct u as [|c u]; [reflexivity|]. intros H. exfalso.
  cbn [append] in H. injection H as _ H.
  repeat (destruct u as [|? u]; cbn [append] in H; [discriminate | injection H as _ H]).
  destruct u; discriminate.
Qed.

End VideoId.

(* ================================================================== *)
(** * Trimming *)

Section Trim.

Lemma trimStart_white ws s : all_chars is_white ws = true -> trimStart (ws ++ s) = trimStart s.
Proof.
  induction ws as [|b ws IH]; simpl; [reflexivity|].
  intros H. apply andb_prop in H. destruct H as [Hb H]. rewrite Hb. apply IH, H.
Qed.

Lemma trimEnd_white ws : all_chars is_white ws = true -> trimEnd ws = "".
Proof.
  induction ws as [|b ws IH]; simpl; [reflexivity|].
  intros H. apply andb_prop in H. destruct H as [Hb H]. rewrite (IH H), Hb. reflexivity.
Qed.

Lemma trimEnd_solid s ws :
  all_chars not_white s = true -> all_chars is_white ws = true -> trimEnd (s ++ ws) = s.
Proof.
  intros S W. induction s as [|b s IH]; cbn [append].
  - apply trimEnd_white, W.
  - simpl in S. apply andb_prop in S. destruct S as [Sb S].
    cbn [trimEnd]. rewrite (IH S).
    destruct s; [|reflexivity].
    unfold not_white in Sb. rewrite Bool.negb_true_iff in Sb. rewrite Sb. reflexivity.
Qed.

Lemma trim_padded ws1 s ws2 :
  all_chars is_white ws1 = true -> all_chars not_white s = true ->
  all_chars is_white ws2 = true -> trim (ws1 ++ s ++ ws2) = s.
Proof.
  intros W1 S W2. unfold trim. rewrite trimStart_white by assumption.
  destruct s as [|b s].
  - cbn [append]. rewrite <- (append_nil_r ws2), trimStart_white by assumption.
    reflexivity.
  - pose proof S as S'. simpl in S'. apply andb_prop in S'. destruct S' as [Sb _].
    unfold not_white in Sb. rewrite Bool.negb_true_iff in Sb.
    cbn [append trimStart]. rewrite Sb.
    apply (trimEnd_solid (String b s) ws2 S W2).
Qed.

Lemma truthy_nonempty s : s <> "" -> truthy s = true.
Proof. destruct s; [congruence | reflexivity]. Qed.

End Trim.

(* ================================================================== *)
(** * Image paths that are already rewritten *)

Section StableImages.

Lemma plain_img_rewritten attrs dir name ext more :
  plain_img attrs dir name ext more -> plain_img attrs "images/" name ext more.
Proof.
  intros [A D De N E M L]. split; try assumption.
  - reflexivity.
  - right. exists "images". reflexivity.
  - rewrite toUpperCase_append in L. apply excludes_suffix in L.
    rewrite toUpperCase_append.
    revert L. generalize (toUpperCase (name ++ "." ++ ext ++ DQ ++ more)). intros Y L.
    unfold includes in *.
    destruct (cut (toUpperCase SRC) Y) as [[? ?]|] eqn:C; [discriminate|].
    assert (P : forall b t, b <> "S"%char -> prefix (toUpperCase SRC) (String b t) = false).
    { intros b t Nb. cbn [SRC DQ append toUpperCase prefix].
      destruct (ascii_dec (upper "s") b) as [Eb|]; [|reflexivity].
      exfalso. apply Nb. rewrite <- Eb. reflexivity. }
    assert (P2 : forall t, prefix (toUpperCase SRC) (String "S" (String "/" t)) = false)
      by reflexivity.
    change (toUpperCase "images/" ++ Y)
      with (String "I" (String "M" (String "A" (String "G" (String "E"
              (String "S" (String "/" Y))))))).
    cbn [cut]. rewrite !P by discriminate. rewrite P2.
    rewrite C. reflexivity.
Qed.

End StableImages.

(* ================================================================== *)
(** * Further properties *)

(** X1.  Which rule converts a figure.  A blank figure is given the
    converter's blank rule, whatever its classes.  A figure that is not
    blank is converted by the video rule when its class list holds
    wp-block-embed-youtube, else by the table rule when it holds
    wp-block-table, else by the figure rule: a rule added later takes
    precedence over the ones added before it.  This holds for every
    serializer, converter and blank test. *)
Theorem figure_rule_precedence
    (outerHTML : node -> string) (turndown : string -> string)
    (isBlank : node -> bool) (n : node) :
  nodeName n = "FIGURE" ->
  forNode outerHTML turndown isBlank n =
  if isBlank n then BlankRule
  else AddedRule (if classList_contains "wp-block-embed-youtube" n then "wpEmbedYoutube"
                  else if classList_contains "wp-block-table" n then "wpBlockTable"
                  else "figure").
Proof.
  intros F. rewrite forNode_rule_for, rule_for_cascade.
  unfold wpEmbedYoutube_filter, wpBlockTable_filter, pre_filter, figcaption_filter,
    figure_filter. rewrite F. cbn [String.eqb Ascii.eqb Bool.eqb andb].
  destruct (isBlank n); [reflexivity|].
  destruct (classList_contains "wp-block-embed-youtube" n); [reflexivity|].
  destruct (classList_contains "wp-block-table" n); reflexivity.
Qed.

Lemma figure_rule_precedence_witness :
  nodeName caption_only_table_figure = "FIGURE" /\
  Sample.white_text caption_only_table_figure = false /\
  forNode Sample.serialize Sample.decode_text Sample.white_text caption_only_table_figure
  = AddedRule "wpBlockTable".
Proof.
  split; [reflexivity|]. split; [reflexivity|].
  apply (figure_rule_precedence Sample.serialize Sample.decode_text Sample.white_text
           caption_only_table_figure).
  reflexivity.
Defined.

(** X2.  The order of the rules matters for figures only.  The filters
    of the nine rules accept a node that is not a figure at most once.
    Such a node is given the converter's blank rule when it is blank,
    also when a filter accepts it; when it is not blank it is converted
    by the one rule that accepts it, and by a rule of the converter's
    own when none does. *)
Theorem one_rule_unless_figure
    (outerHTML : node -> string) (turndown : string -> string)
    (isBlank : node -> bool) (n : node) :
  nodeName n <> "FIGURE" ->
  List.length (accepting outerHTML turndown n) <= 1 /\
  forNode outerHTML turndown isBlank n =
  if isBlank n then BlankRule
  else match accepting outerHTML turndown n with
       | name :: _ => AddedRule name
       | [] => LibraryRule
       end.
Proof.
  intros F. rewrite forNode_rule_for, rule_for_cascade.
  unfold accepting, initTurndownService.
  cbn [List.filter filter].
  unfold wpEmbedYoutube_filter, wpBlockTable_filter, figure_filter, pre_filter,
    figcaption_filter, iframe_filter, script_filter, codepen_filter, tweet_filter.
  remember (nodeName n) as t eqn:Et. clear Et.
  destruct (String.eqb_spec t "FIGURE") as [E|_]; [contradiction|].
  cbn [andb].
  repeat match goal with
         | |- context [String.eqb t ?c] =>
             destruct (String.eqb_spec t c) as [->|];
             [ cbn [String.eqb Ascii.eqb Bool.eqb andb orb];
               repeat match goal with
                      | |- context [if ?c then _ else _] => destruct c
                      end; cbn [map List.length]; split; (reflexivity || lia) | ]
         end.
  cbn [andb orb map List.length]. split; [lia|]. destruct (isBlank n); reflexivity.
Qed.

Lemma one_rule_unless_figure_witness :
  nodeName code_block <> "FIGURE" /\
  List.length (accepting Sample.serialize Sample.decode_text code_block) <= 1 /\
  forNode Sample.serialize Sample.decode_text Sample.white_text code_block
  = AddedRule "pre".
Proof.
  split; [discriminate|].
  apply (one_rule_unless_figure Sample.serialize Sample.decode_text Sample.white_text
           code_block).
  discriminate.
Defined.

(** X3.  The list-marker rewrite only removes spaces: the output and the
    input are the same text once their spaces are taken out, and the
    output is never longer than the input. *)
Theorem postprocess_only_removes_spaces (s : string) :
  without_spaces (postprocess s) = without_spaces s /\
  String.length (postprocess s) <= String.length s.
Proof.
  destruct (postprocess_facts_below (S (String.length s)) s (Nat.lt_succ_diag_r _))
    as (W & L & _).
  split; assumption.
Qed.

(** X4.  Markdown that holds no two spaces in a row is returned by the
    list-marker rewrite as it is. *)
Theorem postprocess_keeps_single_spaced (s : string) :
  includes "  " s = false -> postprocess s = s.
Proof.
  apply (postprocess_facts_below (S (String.length s)) s (Nat.lt_succ_diag_r _)).
Qed.

Lemma postprocess_keeps_single_spaced_witness :
  includes "  " "- one 2. two" = false /\ postprocess "- one 2. two" = "- one 2. two".
Proof.
  split; [reflexivity|].
  apply (postprocess_keeps_single_spaced "- one 2. two"). reflexivity.
Defined.

(** X5.  Content without markup passes the four rewrites before the
    conversion unchanged: when the content holds no [<] and no two line
    breaks in a row (LF LF, LF CR LF), the converter is given the content
    itself, with either setting of the image flag, and [getPostContent]
    returns the list-marker rewrite of the conversion of the first entry
    of [encoded]. *)
Theorem getPostContent_plain_text
    (turndown : string -> string) (cfg : config) (s : string) (others : list string) :
  includes "<" s = false ->
  includes (LF ++ LF) s = false -> includes (LF ++ CR ++ LF) s = false ->
  preprocess cfg s = s /\
  getPostContent turndown (PostData (s :: others)) cfg = Normal (postprocess (turndown s)).
Proof.
  intros H L1 L2. pose proof (preprocess_plain cfg s H L1 L2) as P.
  split; [exact P|].
  unfold getPostContent, convert. cbn [encoded element nth_error bind].
  rewrite P. reflexivity.
Qed.

Lemma getPostContent_plain_text_witness :
  includes "<" ("Hello" ++ LF ++ "world") = false /\
  includes (LF ++ LF) ("Hello" ++ LF ++ "world") = false /\
  includes (LF ++ CR ++ LF) ("Hello" ++ LF ++ "world") = false /\
  preprocess (Config true) ("Hello" ++ LF ++ "world") = "Hello" ++ LF ++ "world" /\
  getPostContent Sample.decode_text (PostData [("Hello" ++ LF ++ "world"); "second"])
    (Config true)
  = Normal (postprocess (Sample.decode_text ("Hello" ++ LF ++ "world"))).
Proof.
  split; [reflexivity|]. split; [reflexivity|]. split; [reflexivity|].
  apply (getPostContent_plain_text Sample.decode_text (Config true)
           ("Hello" ++ LF ++ "world") ["second"]); reflexivity.
Defined.

(** X6.  The paragraph separator, one round of the global replace.
    Content that holds no two line breaks in a row (each LF or CR LF) is
    left as it is.  Otherwise the content reads [pre], two line breaks,
    [post], with no two line breaks in a row starting inside [pre]; the
    output is [pre], a line feed, an empty div element, a line feed, and
    [post] rewritten in the same way: the carriage returns of the pair
    are dropped. *)
Theorem separate_paragraphs_spec :
  forall s : string,
    (separate_paragraphs s = s /\
     forall p b1 b2 q, line_break b1 -> line_break b2 -> s <> p ++ b1 ++ b2 ++ q) \/
    (exists pre b1 b2 post,
        line_break b1 /\ line_break b2 /\
        s = pre ++ b1 ++ b2 ++ post /\
        separate_paragraphs s =
        pre ++ LF ++ "<div></div>" ++ LF ++ separate_paragraphs post /\
        forall p b q b1' b2' post',
          pre = p ++ String b q -> line_break b1' -> line_break b2' ->
          String b q ++ b1 ++ b2 ++ post <> b1' ++ b2' ++ post').
Proof. exact separate_paragraphs_cases. Qed.

(** X7.  The code-language rewrite, one round of the global replace.
    Content that holds no block comment naming a language right above a
    pre tag ([block_open]: the comment opening, a kind, the language key,
    a language, the comment closing, one line break, the start of the pre
    tag; kind and language not empty and on one line) is left as it is.
    Otherwise the content reads [pre], such a block opening, [post], with
    no block opening starting inside [pre]; the output is [pre], the
    block opening unchanged, the attribute data-wetm-language holding the
    language, and [post] rewritten in the same way. *)
Theorem annotate_code_language_spec :
  forall s : string,
    (annotate_code_language s = s /\
     forall p kind lang nl q,
       language_block kind lang nl -> s <> p ++ block_open kind lang nl ++ q) \/
    (exists pre kind lang nl post,
        language_block kind lang nl /\
        s = pre ++ block_open kind lang nl ++ post /\
        annotate_code_language s =
        pre ++ block_open kind lang nl ++ language_attribute lang ++
        annotate_code_language post /\
        forall p b q kind' lang' nl' post',
          pre = p ++ String b q -> language_block kind' lang' nl' ->
          String b q ++ block_open kind lang nl ++ post <>
          block_open kind' lang' nl' ++ post').
Proof. exact annotate_code_language_cases. Qed.

(** X8.  A block comment that starts a line, whose kind and language
    hold no quote, and that no language key precedes in the content: the
    pre tag below it gets the attribute with exactly that language, the
    comment and everything before it are kept, and the content after the
    start of the pre tag is rewritten in the same way. *)
Theorem annotate_plain_block (pre kind lang nl post : string) :
  language_block kind lang nl ->
  all_chars (except dq) kind = true -> all_chars (except dq) lang = true ->
  pre = "" \/ (exists pre', pre = pre' ++ LF) ->
  includes LANGUAGE_KEY pre = false ->
  annotate_code_language (pre ++ block_open kind lang nl ++ post) =
  pre ++ block_open kind lang nl ++ language_attribute lang ++ annotate_code_language post.
Proof.
  intros B Kq Lq Hpre I. unfold annotate_code_language. rewrite replace_all_step.
  pose proof (plain_block_match kind lang nl post B Kq Lq) as M.
  rewrite (search_at false re_code_language pre _ _ _
             (no_block_before pre _ Hpre I) M).
  cbn [before matched groups after expand capture Nat.eqb].
  rewrite consumed_append.
  destruct (block_open_head kind lang nl) as (t & Hb).
  rewrite Hb at 2. unfold language_attribute. norm_append. reflexivity.
Qed.

Lemma annotate_plain_block_witness :
  language_block "code" "python" LF /\
  all_chars (except dq) "code" = true /\ all_chars (except dq) "python" = true /\
  ("<!-- wp:paragraph -->" ++ LF = "" \/
   exists pre', "<!-- wp:paragraph -->" ++ LF = pre' ++ LF) /\
  includes LANGUAGE_KEY ("<!-- wp:paragraph -->" ++ LF) = false /\
  annotate_code_language
    (("<!-- wp:paragraph -->" ++ LF) ++ block_open "code" "python" LF ++ "class=x>")
  = ("<!-- wp:paragraph -->" ++ LF) ++ block_open "code" "python" LF ++
    language_attribute "python" ++ annotate_code_language "class=x>".
Proof.
  assert (B : language_block "code" "python" LF).
  { split; [split; [discriminate | reflexivity] | split; [discriminate | reflexivity]
           | constructor]. }
  assert (P : "<!-- wp:paragraph -->" ++ LF = "" \/
              exists pre', "<!-- wp:paragraph -->" ++ LF = pre' ++ LF).
  { right. exists "<!-- wp:paragraph -->". reflexivity. }
  split; [exact B|]. split; [reflexivity|]. split; [reflexivity|].
  split; [exact P|]. split; [reflexivity|].
  apply (annotate_plain_block ("<!-- wp:paragraph -->" ++ LF) "code" "python" LF "class=x>"
           B eq_refl eq_refl P eq_refl).
Defined.

(** X9.  The figure rule on children that start with a blank line, as
    the converted children do when the first child is a block: the two
    newlines put after the opening tag and the two the children start
    with are the first four in a row, so they are the ones replaced by
    two, and the rest of the children and the closing padding are
    copied as they are. *)
Theorem figure_replacement_leading_blank (rest : string) (n : place) :
  querySelector (ByTag "figcaption") (this n) <> None ->
  figure_replacement (NL2 ++ rest) n =
  NL2 ++ "<figure>" ++ NL2 ++ rest ++ NL2 ++ "</figure>" ++ NL2.
Proof.
  intros Q. rewrite figure_replacement_cases.
  destruct (querySelector (ByTag "figcaption") (this n)); [|congruence].
  unfold replace.
  change (NL2 ++ "<figure>" ++ NL2 ++ (NL2 ++ rest) ++ NL2 ++ "</figure>" ++ NL2)
    with ((NL2 ++ "<figure>") ++ NL4 ++ (rest ++ NL2 ++ "</figure>" ++ NL2)).
  rewrite cut_at; [reflexivity|].
  intros p c q Hp.
  repeat (destruct p as [|? p]; cbn [append] in Hp;
          [injection Hp as <- <-; reflexivity | injection Hp as _ Hp]).
  destruct p; discriminate.
Qed.

Lemma figure_replacement_leading_blank_witness :
  querySelector (ByTag "figcaption") (this (At None captioned_embed)) <> None /\
  figure_replacement (NL2 ++ "text") (At None captioned_embed) =
  NL2 ++ "<figure>" ++ NL2 ++ "text" ++ NL2 ++ "</figure>" ++ NL2.
Proof.
  split; [discriminate|].
  apply (figure_replacement_leading_blank "text" (At None captioned_embed)).
  discriminate.
Defined.

(** X10.  The video identifier is a piece of the address, and it holds
    neither the delimiter nor the marker of the branch that produced it:
    no ampersand and no watch marker when the address holds the watch
    marker; no question mark and no short-link marker otherwise. *)
Theorem extractYoutubeVideoId_piece_of_url (url : string) :
  (exists a b, url = a ++ extractYoutubeVideoId url ++ b) /\
  (includes "watch?v=" url = true ->
   includes "&" (extractYoutubeVideoId url) = false /\
   includes "watch?v=" (extractYoutubeVideoId url) = false) /\
  (includes "watch?v=" url = false ->
   includes "?" (extractYoutubeVideoId url) = false /\
   includes "youtu.be/" (extractYoutubeVideoId url) = false).
Proof.
  assert (E : extractYoutubeVideoId url =
              if includes "watch?v=" url
              then upto "&" (upto "watch?v=" (after_first "watch?v=" url))
              else if includes "youtu.be/" url
                   then upto "?" (upto "youtu.be/" (after_first "youtu.be/" url))
                   else "").
  { unfold extractYoutubeVideoId. rewrite extractYoutubeVideoId_try_value. reflexivity. }
  assert (P : forall mk d : string,
             exists a b, url = a ++ upto d (upto mk (after_first mk url)) ++ b).
  { intros mk d. destruct (after_first_suffix mk url) as (l & Hl).
    destruct (upto_prefix mk (after_first mk url)) as (r1 & H1).
    destruct (upto_prefix d (upto mk (after_first mk url))) as (r2 & H2).
    exists l, (r2 ++ r1). rewrite <- (append_assoc _ r2 r1), <- H2, <- H1. exact Hl. }
  assert (Q : forall (x : ascii) (mk d : string) (s : string),
             includes (String x mk) (upto d (upto (String x mk) s)) = false).
  { intros x mk d s. destruct (upto_prefix d (upto (String x mk) s)) as (r & H).
    apply (excludes_prefix _ _ r). rewrite <- H. apply upto_excludes. }
  rewrite E. split; [|split].
  - destruct (includes "watch?v=" url); [apply P|].
    destruct (includes "youtu.be/" url); [apply P|]. exists "", url. reflexivity.
  - intros W. rewrite W. split; [apply upto_excludes | apply Q].
  - intros W. rewrite W. destruct (includes "youtu.be/" url).
    + split; [apply upto_excludes | apply Q].
    + split; reflexivity.
Qed.

(** X11.  Round trip for watch addresses.  An identifier that holds no
    ampersand and no watch marker is recovered from any address made of
    a base without the marker, the marker, the identifier, and nothing
    more or an ampersand and further parameters. *)
Theorem extractYoutubeVideoId_watch_url (base id tail : string) :
  includes "watch?v=" base = false ->
  includes "watch?v=" id = false -> includes "&" id = false ->
  tail = "" \/ (exists t, tail = "&" ++ t) ->
  extractYoutubeVideoId (base ++ "watch?v=" ++ id ++ tail) = id.
Proof.
  intros Ib Ii Id T.
  destruct (segment_round_trip "w" "atch?v=" "&" base id tail
              watch_marker_no_overlap eq_refl Ib Ii Id T) as (W & E).
  unfold extractYoutubeVideoId. rewrite extractYoutubeVideoId_try_value, W. exact E.
Qed.

Lemma extractYoutubeVideoId_watch_url_witness :
  includes "watch?v=" "https://www.youtube.com/" = false /\
  includes "watch?v=" "dQw4w9WgXcQ" = false /\ includes "&" "dQw4w9WgXcQ" = false /\
  ("&t=42s" = "" \/ exists t, "&t=42s" = "&" ++ t) /\
  extractYoutubeVideoId ("https://www.youtube.com/" ++ "watch?v=" ++ "dQw4w9WgXcQ" ++ "&t=42s")
  = "dQw4w9WgXcQ".
Proof.
  assert (T : "&t=42s" = "" \/ exists t, "&t=42s" = "&" ++ t).
  { right. exists "t=42s". reflexivity. }
  split; [reflexivity|]. split; [reflexivity|]. split; [reflexivity|]. split; [exact T|].
  apply (extractYoutubeVideoId_watch_url "https://www.youtube.com/" "dQw4w9WgXcQ" "&t=42s"
           eq_refl eq_refl eq_refl T).
Defined.

(** X12.  Round trip for short links.  In an address that holds no watch
    marker, an identifier that holds no question mark and no short-link
    marker is recovered from a base without the marker, the marker, the
    identifier, and nothing more or a question mark and parameters. *)
Theorem extractYoutubeVideoId_short_url (base id tail : string) :
  includes "watch?v=" (base ++ "youtu.be/" ++ id ++ tail) = false ->
  includes "youtu.be/" base = false ->
  includes "youtu.be/" id = false -> includes "?" id = false ->
  tail = "" \/ (exists t, tail = "?" ++ t) ->
  extractYoutubeVideoId (base ++ "youtu.be/" ++ id ++ tail) = id.
Proof.
  intros NW Ib Ii Id T.
  destruct (segment_round_trip "y" "outu.be/" "?" base id tail
              short_marker_no_overlap eq_refl Ib Ii Id T) as (Y & E).
  unfold extractYoutubeVideoId. rewrite extractYoutubeVideoId_try_value, NW, Y. exact E.
Qed.

Lemma extractYoutubeVideoId_short_url_witness :
  includes "watch?v=" ("https://" ++ "youtu.be/" ++ "dQw4w9WgXcQ" ++ "?t=42") = false /\
  includes "youtu.be/" "https://" = false /\
  includes "youtu.be/" "dQw4w9WgXcQ" = false /\ includes "?" "dQw4w9WgXcQ" = false /\
  ("?t=42" = "" \/ exists t, "?t=42" = "?" ++ t) /\
  extractYoutubeVideoId ("https://" ++ "youtu.be/" ++ "dQw4w9WgXcQ" ++ "?t=42")
  = "dQw4w9WgXcQ".
Proof.
  assert (T : "?t=42" = "" \/ exists t, "?t=42" = "?" ++ t).
  { right. exists "t=42". reflexivity. }
  split; [reflexivity|]. split; [reflexivity|]. split; [reflexivity|].
  split; [reflexivity|]. split; [exact T|].
  apply (extractYoutubeVideoId_short_url "https://" "dQw4w9WgXcQ" "?t=42"
           eq_refl eq_refl eq_refl eq_refl T).
Defined.

(** X13.  The video rule on a wrapper whose text is an address between
    white space: when the address itself holds no white space and gives
    a non-empty identifier, the rule returns the iframe for that
    identifier, whatever the converted children are (a caption inside
    the figure is not part of the output). *)
Theorem wpEmbedYoutube_padded_url
    (content : string) (n : place) (wrapper : node) (ws1 url ws2 : string) :
  querySelector (ByClass "wp-block-embed__wrapper") (this n) = Some wrapper ->
  textContent wrapper = ws1 ++ url ++ ws2 ->
  all_chars is_white ws1 = true -> all_chars not_white url = true ->
  all_chars is_white ws2 = true ->
  extractYoutubeVideoId url <> "" ->
  wpEmbedYoutube_replacement content n = youtube_iframe (extractYoutubeVideoId url).
Proof.
  intros Q T W1 U W2 N. unfold wpEmbedYoutube_replacement. rewrite Q, T.
  cbv zeta. rewrite (trim_padded ws1 url ws2 W1 U W2), (truthy_nonempty _ N). reflexivity.
Qed.

Lemma wpEmbedYoutube_padded_url_witness :
  querySelector (ByClass "wp-block-embed__wrapper")
    (this (At None (youtube_figure "https://youtu.be/XYZ789?t=5")))
  = Some (youtube_wrapper "https://youtu.be/XYZ789?t=5") /\
  textContent (youtube_wrapper "https://youtu.be/XYZ789?t=5")
  = LF ++ "https://youtu.be/XYZ789?t=5" ++ LF /\
  all_chars is_white LF = true /\
  all_chars not_white "https://youtu.be/XYZ789?t=5" = true /\
  extractYoutubeVideoId "https://youtu.be/XYZ789?t=5" <> "" /\
  wpEmbedYoutube_replacement "caption" (At None (youtube_figure "https://youtu.be/XYZ789?t=5"))
  = youtube_iframe (extractYoutubeVideoId "https://youtu.be/XYZ789?t=5").
Proof.
  assert (N : extractYoutubeVideoId "https://youtu.be/XYZ789?t=5" <> "") by discriminate.
  split; [reflexivity|]. split; [reflexivity|]. split; [reflexivity|].
  split; [reflexivity|]. split; [exact N|].
  apply (wpEmbedYoutube_padded_url "caption"
           (At None (youtube_figure "https://youtu.be/XYZ789?t=5"))
           (youtube_wrapper "https://youtu.be/XYZ789?t=5")
           LF "https://youtu.be/XYZ789?t=5" LF eq_refl eq_refl eq_refl eq_refl eq_refl N).
Defined.

(** X14.  With the image flag enabled, an img tag written plainly whose
    source is already [images/NAME.EXT] is left as it is, and the content
    after it is processed in the same way: running the rewrite on its own
    output does not stack a second [images/] on such a tag. *)
Theorem rewrite_image_paths_stable (pre attrs dir name ext more post : string) :
  includes "<IMG" (toUpperCase pre) = false ->
  plain_img attrs dir name ext more ->
  rewrite_image_paths (Config true)
    (pre ++ "<img" ++ attrs ++ SRC ++ "images/" ++ name ++ "." ++ ext ++ DQ ++ more ++ ">"
     ++ post)
  = pre ++ "<img" ++ attrs ++ SRC ++ "images/" ++ name ++ "." ++ ext ++ DQ ++ more ++ ">"
    ++ rewrite_image_paths (Config true) post.
Proof.
  intros P I.
  apply (rewrite_plain_img pre attrs "images/" name ext more post P
           (plain_img_rewritten _ _ _ _ _ I)).
Qed.

Lemma rewrite_image_paths_stable_witness :
  includes "<IMG" (toUpperCase "<p>") = false /\
  plain_img (" class=" ++ DQ ++ "wide" ++ DQ ++ " ")
    "https://example.com/wp-content/uploads/2020/01/" "photo" "jpeg"
    (" alt=" ++ DQ ++ "a" ++ DQ) /\
  rewrite_image_paths (Config true)
    ("<p>" ++ "<img" ++ (" class=" ++ DQ ++ "wide" ++ DQ ++ " ") ++ SRC ++ "images/" ++
     "photo" ++ "." ++ "jpeg" ++ DQ ++ (" alt=" ++ DQ ++ "a" ++ DQ) ++ ">" ++ " text</p>")
  = "<p>" ++ "<img" ++ (" class=" ++ DQ ++ "wide" ++ DQ ++ " ") ++ SRC ++ "images/" ++
    "photo" ++ "." ++ "jpeg" ++ DQ ++ (" alt=" ++ DQ ++ "a" ++ DQ) ++ ">" ++
    rewrite_image_paths (Config true) " text</p>".
Proof.
  split; [reflexivity|]. split; [exact plain_img_sample|].
  apply (rewrite_image_paths_stable "<p>" (" class=" ++ DQ ++ "wide" ++ DQ ++ " ")
           "https://example.com/wp-content/uploads/2020/01/" "photo" "jpeg"
           (" alt=" ++ DQ ++ "a" ++ DQ) " text</p>" eq_refl plain_img_sample).
Defined.

(** X15.  What the image rewrite does on tags written plainly, and one
    round of it in general.  With the flag disabled the step changes
    nothing.  With the flag enabled, an img tag written plainly,
    [<img ATTRS src="DIR NAME.EXT" MORE>], that no other [<img] precedes
    in the content, has its source replaced by [images/NAME.EXT], the
    rest of the tag is kept, and what follows the tag is rewritten in the
    same way.  In general, content that holds no match of the image
    pattern is left as it is; otherwise the content reads [pre], the
    leftmost match made of an opening (from [<img] to the quote after
    [src=]), skipped text, a file name and a closing (from the quote to
    the next [>]), and [post]; the output is [pre], the opening,
    [images/], the file name, the closing, and [post] rewritten in the
    same way.  The file name is a non-empty run of characters other than
    slash and quote, a dot, and gif, jpg, jpeg, png or webp in either
    case.  So [src="foo.png"] becomes [src="images/foo.png"], a path
    before the file name is dropped, and a lone tag whose source ends in
    [.bmp] is unchanged. *)
Theorem rewrite_image_paths_spec :
  (forall s : string, rewrite_image_paths (Config false) s = s) /\
  (forall pre attrs dir name ext more post : string,
      includes "<IMG" (toUpperCase pre) = false ->
      plain_img attrs dir name ext more ->
      rewrite_image_paths (Config true)
        (pre ++ "<img" ++ attrs ++ SRC ++ dir ++ name ++ "." ++ ext ++ DQ ++ more ++ ">"
         ++ post)
      = pre ++ "<img" ++ attrs ++ SRC ++ "images/" ++ name ++ "." ++ ext ++ DQ ++ more
        ++ ">" ++ rewrite_image_paths (Config true) post) /\
  (forall s : string,
      (rewrite_image_paths (Config true) s = s /\
       forall p o k f cl q,
         img_src_parts o k f cl -> s <> p ++ (o ++ k ++ f ++ cl) ++ q) \/
      (exists pre o k f cl post,
          img_src_parts o k f cl /\
          s = pre ++ (o ++ k ++ f ++ cl) ++ post /\
          rewrite_image_paths (Config true) s =
          pre ++ (o ++ "images/" ++ f ++ cl) ++ rewrite_image_paths (Config true) post /\
          forall p b q o' k' f' cl' post',
            pre = p ++ String b q -> img_src_parts o' k' f' cl' ->
            String b q ++ (o ++ k ++ f ++ cl) ++ post <> (o' ++ k' ++ f' ++ cl') ++ post')) /\
  (forall o k f cl : string,
      img_src_parts o k f cl ->
      (exists tag attrs src,
          o = tag ++ attrs ++ src /\ toUpperCase tag = "<IMG" /\
          all_chars (except ">") attrs = true /\ toUpperCase src = "SRC=" ++ DQ) /\
      all_chars dot k = true /\
      (exists name ext,
          f = name ++ "." ++ ext /\ name <> "" /\
          all_chars not_slash_quote name = true /\
          In (toUpperCase ext) image_extensions) /\
      (exists attrs, cl = DQ ++ attrs ++ ">" /\ all_chars (except ">") attrs = true)) /\
  rewrite_image_paths (Config true) ("<img src=" ++ DQ ++ "foo.png" ++ DQ ++ ">")
  = "<img src=" ++ DQ ++ "images/foo.png" ++ DQ ++ ">" /\
  rewrite_image_paths (Config true) ("<img src=" ++ DQ ++ "foo.bmp" ++ DQ ++ ">")
  = "<img src=" ++ DQ ++ "foo.bmp" ++ DQ ++ ">" /\
  rewrite_image_paths (Config true)
    ("<p><IMG class=" ++ DQ ++ "wide" ++ DQ ++ " src=" ++ DQ ++
     "https://example.com/wp-content/uploads/2020/01/Photo.JPEG" ++ DQ ++
     " alt=" ++ DQ ++ "a" ++ DQ ++ "> text</p>")
  = "<p><IMG class=" ++ DQ ++ "wide" ++ DQ ++ " src=" ++ DQ ++ "images/Photo.JPEG" ++ DQ ++
    " alt=" ++ DQ ++ "a" ++ DQ ++ "> text</p>".
Proof.
  split; [reflexivity|]. split; [exact rewrite_plain_img|].
  split; [exact rewrite_image_paths_cases|].
  split; [|repeat split; vm_compute; reflexivity].
  intros o k f cl (O & K & F & C).
  split; [apply img_open_shape, O|]. split; [exact K|].
  split; [apply img_file_shape, F | apply img_close_shape, C].
Qed.

Lemma rewrite_image_paths_spec_witness :
  includes "<IMG" (toUpperCase "<p>") = false /\
  plain_img (" class=" ++ DQ ++ "wide" ++ DQ ++ " ")
    "https://example.com/wp-content/uploads/2020/01/" "photo" "jpeg"
    (" alt=" ++ DQ ++ "a" ++ DQ) /\
  rewrite_image_paths (Config true)
    ("<p>" ++ "<img" ++ (" class=" ++ DQ ++ "wide" ++ DQ ++ " ") ++ SRC ++
     "https://example.com/wp-content/uploads/2020/01/" ++ "photo" ++ "." ++ "jpeg" ++ DQ ++
     (" alt=" ++ DQ ++ "a" ++ DQ) ++ ">" ++ " text</p>")
  = "<p>" ++ "<img" ++ (" class=" ++ DQ ++ "wide" ++ DQ ++ " ") ++ SRC ++ "images/" ++
    "photo" ++ "." ++ "jpeg" ++ DQ ++ (" alt=" ++ DQ ++ "a" ++ DQ) ++ ">" ++
    rewrite_image_paths (Config true) " text</p>".
Proof.
  split; [reflexivity|]. split; [exact plain_img_sample|].
  apply (proj1 (proj2 rewrite_image_paths_spec)); [reflexivity | exact plain_img_sample].
Defined.

